(** * Book review service: the cache-aside read path of [GET /books]

    A shallow embedding of [app/crud.py], [app/models.py], [app/schemas.py]
    and [app/routers/books.py], together with the parts of the Python
    standard library ([json.dumps], [json.loads]) and of the two external
    collaborators (the Redis client and the relational store) that the
    handlers call. *)

From Stdlib Require Import ZArith List Bool Lia Ascii String DecimalZ DecimalFacts.
From stdpp Require Import base option list gmap.

Local Open Scope Z_scope.

(** ** Python text

    A Python [str] is a sequence of code points.  Literals of the source
    are written with [py]. *)

Abbreviation str := (list Z).

Definition ord (a : ascii) : Z := Z.of_nat (nat_of_ascii a).

Definition py (s : string) : str := map ord (list_ascii_of_string s).

(** A Unicode scalar value: a code point that is not a surrogate.  Text
    that went through a UTF-8 database column consists of scalar values. *)
Definition is_scalar (c : Z) : bool :=
  ((0 <=? c) && (c <? 55296)) || ((57344 <=? c) && (c <=? 1114111)).

Definition valid_text (s : str) : Prop := Forall (fun c => is_scalar c = true) s.

(** [if s:] on a [str] *)
Definition str_truthy (s : str) : bool :=
  match s with [] => false | _ :: _ => true end.

(** ** JSON values, as [json.loads] builds them and [json.dumps] takes them

    A [dict] keeps insertion order, so it is an association list.  A float
    is kept as the literal it was read from. *)

Unset Elimination Schemes.
Inductive json : Type :=
| JNull
| JBool (b : bool)
| JInt (n : Z)
| JFloat (lit : str)
| JStr (s : str)
| JList (l : list json)
| JDict (d : list (str * json)).
Set Elimination Schemes.

(** *** Characters of the JSON grammar *)

Definition DQUOTE : Z := 34.     (* the double quote *)
Definition BACKSLASH : Z := 92.
Definition SLASH : Z := 47.
Definition LBRACKET : Z := 91.
Definition RBRACKET : Z := 93.
Definition LBRACE : Z := 123.
Definition RBRACE : Z := 125.
Definition COMMA : Z := 44.
Definition COLON : Z := 58.
Definition MINUS : Z := 45.
Definition PLUS : Z := 43.
Definition DOT : Z := 46.

(** *** [json.dumps]: integers *)

Definition digit_code (k : Z) : Z := 48 + k.

Fixpoint uint_codes (d : Decimal.uint) : str :=
  match d with
  | Decimal.Nil => []
  | Decimal.D0 d => digit_code 0 :: uint_codes d
  | Decimal.D1 d => digit_code 1 :: uint_codes d
  | Decimal.D2 d => digit_code 2 :: uint_codes d
  | Decimal.D3 d => digit_code 3 :: uint_codes d
  | Decimal.D4 d => digit_code 4 :: uint_codes d
  | Decimal.D5 d => digit_code 5 :: uint_codes d
  | Decimal.D6 d => digit_code 6 :: uint_codes d
  | Decimal.D7 d => digit_code 7 :: uint_codes d
  | Decimal.D8 d => digit_code 8 :: uint_codes d
  | Decimal.D9 d => digit_code 9 :: uint_codes d
  end.

(** [int.__repr__]: decimal digits, a minus sign for negative numbers *)
Definition int_repr (n : Z) : str :=
  match Z.to_int n with
  | Decimal.Pos d => uint_codes d
  | Decimal.Neg d => MINUS :: uint_codes d
  end.

(** *** [json.dumps]: strings, with [ensure_ascii=True] (the default) *)

Definition hex_digit (k : Z) : Z := if k <? 10 then 48 + k else 87 + k.

(** ['\\u{0:04x}'.format(n)] *)
Definition u_escape (n : Z) : str :=
  [BACKSLASH; 117;
   hex_digit (n / 4096 mod 16); hex_digit (n / 256 mod 16);
   hex_digit (n / 16 mod 16); hex_digit (n mod 16)].

(** [ESCAPE_DCT] and the [replace] function of [py_encode_basestring_ascii] *)
Definition escape_char (c : Z) : str :=
  if c =? DQUOTE then [BACKSLASH; DQUOTE]
  else if c =? BACKSLASH then [BACKSLASH; BACKSLASH]
  else if c =? 10 then [BACKSLASH; 110]
  else if c =? 13 then [BACKSLASH; 114]
  else if c =? 9 then [BACKSLASH; 116]
  else if c =? 8 then [BACKSLASH; 98]
  else if c =? 12 then [BACKSLASH; 102]
  else if (32 <=? c) && (c <=? 126) then [c]
  else if c <? 65536 then u_escape c
  else
    let n := c - 65536 in
    let s1 := Z.lor 55296 (Z.land (Z.shiftr n 10) 1023) in
    let s2 := Z.lor 56320 (Z.land n 1023) in
    u_escape s1 ++ u_escape s2.

Definition encode_basestring_ascii (s : str) : str :=
  DQUOTE :: flat_map escape_char s ++ [DQUOTE].

(** *** [json.dumps]: values, with the default separators [", "] and [": "] *)

Fixpoint join_sep (sep : str) (parts : list str) : str :=
  match parts with
  | [] => []
  | [p] => p
  | p :: ps => p ++ sep ++ join_sep sep ps
  end.

Fixpoint json_dumps (v : json) : str :=
  match v with
  | JNull => py "null"
  | JBool true => py "true"
  | JBool false => py "false"
  | JInt n => int_repr n
  | JFloat lit => lit
  | JStr s => encode_basestring_ascii s
  | JList l => LBRACKET :: join_sep (py ", ") (map json_dumps l) ++ [RBRACKET]
  | JDict d =>
      LBRACE ::
      join_sep (py ", ")
        (map (fun kv => encode_basestring_ascii (fst kv) ++ py ": " ++ json_dumps (snd kv)) d)
      ++ [RBRACE]
  end.

(** *** [json.loads]: the scanner

    The functions below follow [json/decoder.py] and [json/scanner.py]:
    [scanstring], [JSONArray], [JSONObject], the number pattern
    [NUMBER_RE] and [scan_once].  A scanner takes the text that is left
    and returns the value read together with the text after it; [None]
    stands for [JSONDecodeError]. *)

Definition is_ws (c : Z) : bool :=
  (c =? 32) || (c =? 9) || (c =? 10) || (c =? 13).

(** [WHITESPACE.match(s, end).end()] *)
Fixpoint skip_ws (s : str) : str :=
  match s with
  | c :: t => if is_ws c then skip_ws t else s
  | [] => []
  end.

Definition is_digit (c : Z) : bool := (48 <=? c) && (c <=? 57).

Definition hex_val (c : Z) : option Z :=
  if (48 <=? c) && (c <=? 57) then Some (c - 48)
  else if (97 <=? c) && (c <=? 102) then Some (c - 87)
  else if (65 <=? c) && (c <=? 70) then Some (c - 55)
  else None.

(** [_decode_uXXXX]: four hexadecimal digits *)
Definition decode_uXXXX (a b c d : Z) : option Z :=
  x1 ← hex_val a; x2 ← hex_val b; x3 ← hex_val c; x4 ← hex_val d;
  Some (((x1 * 16 + x2) * 16 + x3) * 16 + x4).

(** The table [BACKSLASH] of [json/decoder.py] *)
Definition unescape (e : Z) : option Z :=
  if e =? DQUOTE then Some DQUOTE
  else if e =? BACKSLASH then Some BACKSLASH
  else if e =? SLASH then Some SLASH
  else if e =? 98 then Some 8
  else if e =? 102 then Some 12
  else if e =? 110 then Some 10
  else if e =? 114 then Some 13
  else if e =? 116 then Some 9
  else None.

Definition is_high_surrogate (u : Z) : bool := (55296 <=? u) && (u <=? 56319).
Definition is_low_surrogate (u : Z) : bool := (56320 <=? u) && (u <=? 57343).

(** [scanstring(s, end, strict=True)], called after the opening quote *)
Fixpoint scanstring (s : str) : option (str * str) :=
  match s with
  | [] => None                                   (* unterminated string *)
  | c :: t =>
    if c =? DQUOTE then Some ([], t)
    else if c =? BACKSLASH then
      match t with
      | [] => None                               (* unterminated string *)
      | esc :: t1 =>
        if esc =? 117 then
          match t1 with
          | h1 :: h2 :: h3 :: h4 :: t2 =>
            match decode_uXXXX h1 h2 h3 h4 with
            | None => None                       (* invalid \uXXXX escape *)
            | Some uni =>
              match t2 with
              | b :: u :: l1 :: l2 :: l3 :: l4 :: t3 =>
                if is_high_surrogate uni && (b =? BACKSLASH) && (u =? 117) then
                  match decode_uXXXX l1 l2 l3 l4 with
                  | None => None                 (* invalid \uXXXX escape *)
                  | Some uni2 =>
                    if is_low_surrogate uni2 then
                      '(chunk, rest) ← scanstring t3;
                      Some ((65536 + Z.lor (Z.shiftl (uni - 55296) 10) (uni2 - 56320)) :: chunk, rest)
                    else
                      '(chunk, rest) ← scanstring t2;
                      Some (uni :: chunk, rest)
                  end
                else
                  '(chunk, rest) ← scanstring t2;
                  Some (uni :: chunk, rest)
              | _ =>
                if is_high_surrogate uni && bool_decide (take 2 t2 = [BACKSLASH; 117]) then
                  None                           (* invalid \uXXXX escape *)
                else
                  '(chunk, rest) ← scanstring t2;
                  Some (uni :: chunk, rest)
              end
            end
          | _ => None                            (* invalid \uXXXX escape *)
          end
        else
          match unescape esc with
          | None => None                         (* invalid \escape *)
          | Some ch => '(chunk, rest) ← scanstring t1; Some (ch :: chunk, rest)
          end
      end
    else if (0 <=? c) && (c <? 32) then None     (* invalid control character *)
    else '(chunk, rest) ← scanstring t; Some (c :: chunk, rest)
  end.

(** The longest prefix of decimal digits *)
Fixpoint span_digits (s : str) : str * str :=
  match s with
  | c :: t => if is_digit c then let '(ds, r) := span_digits t in (c :: ds, r) else ([], s)
  | [] => ([], [])
  end.

(** The integer part of [NUMBER_RE]: an optional minus sign, then either
    a single zero or a non-zero digit followed by any digits *)
Definition match_integer (s : str) : option (str * str) :=
  let '(sign, s1) :=
    match s with
    | c :: t => if c =? MINUS then ([MINUS], t) else ([], s)
    | [] => ([], s)
    end in
  match s1 with
  | c :: t =>
    if c =? 48 then Some (sign ++ [48], t)
    else if is_digit c then let '(ds, r) := span_digits t in Some (sign ++ c :: ds, r)
    else None
  | [] => None
  end.

(** The optional fraction of [NUMBER_RE]: a dot and at least one digit *)
Definition match_frac (s : str) : str * str :=
  match s with
  | c :: t =>
    if c =? DOT then
      match span_digits t with
      | ([], _) => ([], s)
      | (ds, r) => (DOT :: ds, r)
      end
    else ([], s)
  | [] => ([], s)
  end.

(** The optional exponent of [NUMBER_RE]: [e] or [E], an optional sign and
    at least one digit *)
Definition match_exp (s : str) : str * str :=
  match s with
  | c :: t =>
    if (c =? 101) || (c =? 69) then
      let '(sign, t1) :=
        match t with
        | g :: t' => if (g =? MINUS) || (g =? PLUS) then ([g], t') else ([], t)
        | [] => ([], t)
        end in
      match span_digits t1 with
      | ([], _) => ([], s)
      | (ds, r) => (c :: sign ++ ds, r)
      end
    else ([], s)
  | [] => ([], s)
  end.

Fixpoint codes_uint (s : str) : Decimal.uint :=
  match s with
  | [] => Decimal.Nil
  | c :: t =>
    let d := codes_uint t in
    if c =? 48 then Decimal.D0 d else if c =? 49 then Decimal.D1 d
    else if c =? 50 then Decimal.D2 d else if c =? 51 then Decimal.D3 d
    else if c =? 52 then Decimal.D4 d else if c =? 53 then Decimal.D5 d
    else if c =? 54 then Decimal.D6 d else if c =? 55 then Decimal.D7 d
    else if c =? 56 then Decimal.D8 d else Decimal.D9 d
  end.

(** [int(integer)] on a match of the integer part of [NUMBER_RE] *)
Definition int_of_text (s : str) : Z :=
  match s with
  | c :: t => if c =? MINUS then Z.of_int (Decimal.Neg (codes_uint t))
              else Z.of_int (Decimal.Pos (codes_uint s))
  | [] => 0
  end.

(** [match_number] of [scan_once]: an integer when there is neither a
    fraction nor an exponent, a float otherwise *)
Definition scan_number (s : str) : option (json * str) :=
  '(integer, s1) ← match_integer s;
  let '(frac, s2) := match_frac s1 in
  let '(exp, s3) := match_exp s2 in
  match frac, exp with
  | [], [] => Some (JInt (int_of_text integer), s3)
  | _, _ => Some (JFloat (integer ++ frac ++ exp), s3)
  end.

(** [s[idx:idx + len(w)] == w] *)
Fixpoint strip_prefix (w s : str) : option str :=
  match w, s with
  | [], _ => Some s
  | a :: w', b :: s' => if a =? b then strip_prefix w' s' else None
  | _ :: _, [] => None
  end.

(** [dict(pairs)]: a later pair with a key already present replaces the
    value and keeps the place of the first *)
Fixpoint dict_set (k : str) (v : json) (d : list (str * json)) : list (str * json) :=
  match d with
  | [] => [(k, v)]
  | (k', v') :: d' => if bool_decide (k = k') then (k, v) :: d' else (k', v') :: dict_set k v d'
  end.

Definition dict_of_pairs (pairs : list (str * json)) : list (str * json) :=
  fold_left (fun d kv => dict_set (fst kv) (snd kv) d) pairs [].

(** The constants and numbers of [scan_once] *)
Definition scan_atom (s : str) : option (json * str) :=
  match strip_prefix (py "null") s with Some r => Some (JNull, r) | None =>
  match strip_prefix (py "true") s with Some r => Some (JBool true, r) | None =>
  match strip_prefix (py "false") s with Some r => Some (JBool false, r) | None =>
  match scan_number s with Some res => Some res | None =>
  match strip_prefix (py "NaN") s with Some r => Some (JFloat (py "NaN"), r) | None =>
  match strip_prefix (py "Infinity") s with Some r => Some (JFloat (py "Infinity"), r) | None =>
  match strip_prefix (py "-Infinity") s with Some r => Some (JFloat (py "-Infinity"), r) | None =>
  None
  end end end end end end end.

(** [scan_once], [JSONArray] (after the opening bracket and the look-ahead
    for the empty array) and [JSONObject] (after the opening quote of a
    key).  The recursion of the decoder is bounded by [fuel]. *)
Fixpoint scan_once (fuel : nat) (s : str) : option (json * str) :=
  match fuel with
  | O => None
  | S fuel =>
    match s with
    | [] => None                                 (* expecting value *)
    | c :: t =>
      if c =? DQUOTE then
        '(x, r) ← scanstring t; Some (JStr x, r)
      else if c =? LBRACE then
        match skip_ws t with
        | c1 :: t1 =>
          if c1 =? RBRACE then Some (JDict [], t1)
          else if c1 =? DQUOTE then
            '(pairs, r) ← JSONObject fuel t1; Some (JDict (dict_of_pairs pairs), r)
          else None                              (* expecting property name *)
        | [] => None
        end
      else if c =? LBRACKET then
        match skip_ws t with
        | c1 :: t1 =>
          if c1 =? RBRACKET then Some (JList [], t1)
          else '(values, r) ← JSONArray fuel (c1 :: t1); Some (JList values, r)
        | [] => None
        end
      else scan_atom s
    end
  end
with JSONArray (fuel : nat) (s : str) : option (list json * str) :=
  match fuel with
  | O => None
  | S fuel =>
    '(value, s1) ← scan_once fuel s;
    match skip_ws s1 with
    | c :: t =>
      if c =? RBRACKET then Some ([value], t)
      else if c =? COMMA then
        '(values, r) ← JSONArray fuel (skip_ws t); Some (value :: values, r)
      else None                                  (* expecting ',' delimiter *)
    | [] => None
    end
  end
with JSONObject (fuel : nat) (s : str) : option (list (str * json) * str) :=
  match fuel with
  | O => None
  | S fuel =>
    '(key, s1) ← scanstring s;
    match skip_ws s1 with
    | c :: t =>
      if c =? COLON then
        '(value, s2) ← scan_once fuel (skip_ws t);
        match skip_ws s2 with
        | c2 :: t2 =>
          if c2 =? RBRACE then Some ([(key, value)], t2)
          else if c2 =? COMMA then
            match skip_ws t2 with
            | c3 :: t3 =>
              if c3 =? DQUOTE then
                '(pairs, r) ← JSONObject fuel t3; Some ((key, value) :: pairs, r)
              else None                          (* expecting property name *)
            | [] => None
            end
          else None                              (* expecting ',' delimiter *)
        | [] => None
        end
      else None                                  (* expecting ':' delimiter *)
    | [] => None
    end
  end.

(** [JSONDecoder.decode]: skip leading whitespace, read one value, and
    accept nothing but whitespace after it *)
Definition json_decode (s : str) : option json :=
  '(obj, r) ← scan_once (2 * length s + 2) (skip_ws s);
  match skip_ws r with
  | [] => Some obj
  | _ :: _ => None                               (* extra data *)
  end.

(** ** [app/models.py]: the rows of the two tables *)

Module models.

(** [class Book]: [id] is the primary key; [title] and [author] are
    [nullable=False] *)
Module Book.
Record t : Type := mk { id : Z; title : str; author : str }.
End Book.

(** [class Review]: [book_id] is a foreign key to [books.id] *)
Module Review.
Record t : Type := mk { id : Z; content : str; book_id : option Z }.
End Review.

End models.

(** ** The persistence store

    Modelled from the spec: [app/database.py] (the engine and
    [SessionLocal]) is not part of the sources.  The spec describes the
    store as durable relational storage that assigns the unique integer
    [id] of a row and owns referential integrity: the [book_id] of a
    Review must reference an existing Book, and a review that references
    no book is refused with a constraint violation. *)

Module store.

Record Database : Type := mkDatabase {
  books : list models.Book.t;
  reviews : list models.Review.t
}.

Definition empty : Database := mkDatabase [] [].

(** Modelled from the spec: the store-assigned identity of a new row,
    one more than the greatest identity in the table *)
Definition next_id (ids : list Z) : Z := 1 + fold_right Z.max 0 ids.

(** [SELECT * FROM books] *)
Definition select_books (db : Database) : list models.Book.t := books db.

(** [SELECT * FROM reviews WHERE book_id = ?] *)
Definition select_reviews (db : Database) (book_id : Z) : list models.Review.t :=
  filter (fun r => models.Review.book_id r = Some book_id) (reviews db).

Definition book_exists (db : Database) (book_id : Z) : bool :=
  bool_decide (book_id ∈ map models.Book.id (books db)).

(** [INSERT INTO books (title, author)] *)
Definition insert_book (title author : str) (db : Database) : models.Book.t * Database :=
  let row := models.Book.mk (next_id (map models.Book.id (books db))) title author in
  (row, mkDatabase (books db ++ [row]) (reviews db)).

(** Modelled from the spec: [INSERT INTO reviews (content, book_id)]
    under the foreign-key constraint; [None] is the constraint
    violation, and the tables are then left as they were *)
Definition insert_review (content : str) (book_id : Z) (db : Database)
  : option (models.Review.t * Database) :=
  if book_exists db book_id then
    let row := models.Review.mk (next_id (map models.Review.id (reviews db)))
                                content (Some book_id) in
    Some (row, mkDatabase (books db) (reviews db ++ [row]))
  else None.

End store.

(** ** The world a request handler runs in *)

(** Errors of the Redis client *)
Inductive redis_error : Type :=
| ConnectionError
| TimeoutError
| ResponseError.

(** The exceptions raised in the handlers; each of them is a subclass of
    Python's [Exception] *)
Inductive exn : Type :=
| RedisError (e : redis_error)
| JSONDecodeError
| IntegrityError.

Inductive outcome (A : Type) : Type :=
| Return (a : A)
| Raise (e : exn).
Arguments Return {A} a.
Arguments Raise {A} e.

(** What a handler does to its collaborators and to standard output *)
Inductive event : Type :=
| Print (msg : string) (e : option exn)
| RedisGet (key : str)
| RedisSetex (key : str) (seconds : Z) (value : str)
| SelectBooks
| SelectReviews (book_id : Z)
| InsertBook (title author : str)
| InsertReview (content : str) (book_id : Z).

(** Modelled from the spec: [app/cache.py] (the shared [redis_client]) is
    not part of the sources.  The cache backend is a key-value store with
    expiring entries, reached over a connection that may fail on its own:
    [cache] maps a key to its value and to the instant at which it
    expires, [clock] is the current instant in seconds, and [faults]
    tells, for each forthcoming round trip to the cache backend, whether
    it is answered ([None]) or fails; round trips beyond the end of
    [faults] are answered. *)
Record World : Type := mkWorld {
  db : store.Database;
  cache : gmap str (str * Z);
  clock : Z;
  faults : list (option redis_error);
  trace : list event
}.

Definition set_db (d : store.Database) (w : World) : World :=
  mkWorld d (cache w) (clock w) (faults w) (trace w).
Definition set_cache (c : gmap str (str * Z)) (w : World) : World :=
  mkWorld (db w) c (clock w) (faults w) (trace w).
Definition set_clock (t : Z) (w : World) : World :=
  mkWorld (db w) (cache w) t (faults w) (trace w).
Definition set_faults (f : list (option redis_error)) (w : World) : World :=
  mkWorld (db w) (cache w) (clock w) f (trace w).
Definition emits (evs : list event) (w : World) : World :=
  mkWorld (db w) (cache w) (clock w) (faults w) (trace w ++ evs).
Definition emit (ev : event) (w : World) : World := emits [ev] w.

(** What was done between the world [w] and a later world [w'] *)
Definition events_since (w w' : World) : list event :=
  drop (length (trace w)) (trace w').

(** The next round trip to the cache backend is answered *)
Definition answered (w : World) : bool :=
  match faults w with
  | Some _ :: _ => false
  | _ => true
  end.

Definition pop_fault (w : World) : World :=
  mkWorld (db w) (cache w) (clock w) (tail (faults w)) (trace w).

(** Time passing between two requests *)
Definition sleep (seconds : Z) (w : World) : World :=
  set_clock (clock w + seconds) w.

(** *** The monad of handlers: state and exceptions *)

Definition M (A : Type) : Type := World → outcome A * World.

Definition ret {A} (a : A) : M A := fun w => (Return a, w).

Definition raise {A} (e : exn) : M A := fun w => (Raise e, w).

Definition bind {A B} (m : M A) (k : A → M B) : M B :=
  fun w => match m w with
           | (Return a, w') => k a w'
           | (Raise e, w') => (Raise e, w')
           end.

(** [try: body except Exception as e: handler(e)] *)
Definition try_except {A} (body : M A) (handler : exn → M A) : M A :=
  fun w => match body w with
           | (Return a, w') => (Return a, w')
           | (Raise e, w') => handler e w'
           end.

Declare Scope handler_scope.
Delimit Scope handler_scope with handler.
Notation "x <- m ;; k" := (bind m (fun x => k))
  (at level 100, m at next level, right associativity) : handler_scope.
Notation "m ;; k" := (bind m (fun _ => k))
  (at level 100, right associativity) : handler_scope.
Local Open Scope handler_scope.

Definition log (ev : event) : M unit := fun w => (Return tt, emit ev w).

(** [print(msg)] and [print(msg, e)] *)
Definition print (msg : string) : M unit := log (Print msg None).
Definition print_exn (msg : string) (e : exn) : M unit := log (Print msg (Some e)).

(** *** The Redis client *)

(** The next round trip to the cache backend: consume its entry of
    [faults] *)
Definition round_trip : M unit :=
  fun w => match faults w with
           | Some e :: _ => (Raise (RedisError e), pop_fault w)
           | _ => (Return tt, pop_fault w)
           end.

(** The value under [key], unless it has expired *)
Definition live_value (key : str) (w : World) : option str :=
  match cache w !! key with
  | Some (value, expires) => if clock w <? expires then Some value else None
  | None => None
  end.

(** [await redis_client.get(key)] *)
Definition redis_get (key : str) : M (option str) :=
  log (RedisGet key);;
  round_trip;;
  fun w => (Return (live_value key w), w).

(** [await redis_client.setex(key, seconds, value)] *)
Definition redis_setex (key : str) (seconds : Z) (value : str) : M unit :=
  log (RedisSetex key seconds value);;
  round_trip;;
  fun w => (Return tt, set_cache (<[key := (value, clock w + seconds)]> (cache w)) w).

(** *** [json.loads] and [json.dumps] in a handler *)

Definition json_loads (s : str) : M json :=
  match json_decode s with
  | Some v => ret v
  | None => raise JSONDecodeError
  end.

(** ** [app/schemas.py] *)

Module schemas.

Module ReviewCreate.
Record t : Type := mk { content : str }.
End ReviewCreate.

Module ReviewOut.
Record t : Type := mk { content : str; id : Z }.

(** [ReviewOut.model_validate(review)], with [from_attributes] *)
Definition model_validate (r : models.Review.t) : t :=
  mk (models.Review.content r) (models.Review.id r).

Definition model_dump (r : t) : json :=
  JDict [(py "content", JStr (content r)); (py "id", JInt (id r))].
End ReviewOut.

Module BookCreate.
Record t : Type := mk { title : str; author : str }.
End BookCreate.

Module BookOut.
Record t : Type := mk {
  title : str;
  author : str;
  id : Z;
  reviews : list ReviewOut.t
}.

(** [BookOut.model_validate(book)], with [from_attributes]: reading
    the attribute [reviews] of the row loads the relationship from
    the store *)
Definition model_validate (book : models.Book.t) : M t :=
  log (SelectReviews (models.Book.id book));;
  fun w =>
    let rs := store.select_reviews (db w) (models.Book.id book) in
    (Return (mk (models.Book.title book) (models.Book.author book)
                (models.Book.id book) (map ReviewOut.model_validate rs)), w).

Definition model_dump (b : t) : json :=
  JDict [(py "title", JStr (title b));
         (py "author", JStr (author b));
         (py "id", JInt (id b));
         (py "reviews", JList (map ReviewOut.model_dump (reviews b)))].
End BookOut.

End schemas.

(** ** [app/crud.py]

    The argument [db: Session] of the source is the store of the world. *)

Module crud.

Definition get_books : M (list models.Book.t) :=
  log SelectBooks;;
  fun w => (Return (store.select_books (db w)), w).

Definition create_book (book : schemas.BookCreate.t) : M models.Book.t :=
  log (InsertBook (schemas.BookCreate.title book) (schemas.BookCreate.author book));;
  fun w =>
    let '(db_book, d) :=
      store.insert_book (schemas.BookCreate.title book) (schemas.BookCreate.author book) (db w) in
    (Return db_book, set_db d w).

Definition get_reviews_by_book_id (book_id : Z) : M (list models.Review.t) :=
  log (SelectReviews book_id);;
  fun w => (Return (store.select_reviews (db w) book_id), w).

Definition add_review (book_id : Z) (review : schemas.ReviewCreate.t) : M models.Review.t :=
  log (InsertReview (schemas.ReviewCreate.content review) book_id);;
  fun w =>
    match store.insert_review (schemas.ReviewCreate.content review) book_id (db w) with
    | Some (db_review, d) => (Return db_review, set_db d w)
    | None => (Raise IntegrityError, w)
    end.

End crud.

(** ** [app/routers/books.py] *)

Module books.

(** [[... for book in books]] with a body that runs in the handler *)
Fixpoint for_each {A B} (f : A → M B) (l : list A) : M (list B) :=
  match l with
  | [] => ret []
  | x :: l' => y <- f x;; ys <- for_each f l';; ret (y :: ys)
  end.

Definition cache_key : str := py "all_books".

(** Lines 20-27 of [list_books]: the guarded read of the cache.
    [Some v] is the early [return json.loads(cached_books)]; [None]
    falls through to the rest of the handler. *)
Definition check_redis : M (option json) :=
  try_except
    (cached_books <- redis_get cache_key;;
     match cached_books with
     | Some s =>
       if str_truthy s then
         print "Cache Hit";;
         v <- json_loads s;;
         ret (Some v)
       else ret None
     | None => ret None
     end)
    (fun e => print_exn "Redis not available, skipping cache" e;; ret None).

(** Lines 34-38 of [list_books]: the guarded write to the cache *)
Definition cache_it (result : json) : M unit :=
  try_except
    (redis_setex cache_key 300 (json_dumps result))
    (fun e => print_exn "Redis not available, couldn't set cache" e).

(** [GET /books] *)
Definition list_books : M json :=
  hit <- check_redis;;
  match hit with
  | Some v => ret v
  | None =>
    print "Cache Miss - Fetching from DB";;
    books <- crud.get_books;;
    result <- for_each
                (fun book => b <- schemas.BookOut.model_validate book;;
                             ret (schemas.BookOut.model_dump b))
                books;;
    cache_it (JList result);;
    ret (JList result)
  end.

(** [POST /books] *)
Definition add_book (book : schemas.BookCreate.t) : M models.Book.t :=
  crud.create_book book.

(** [GET /books/{book_id}/reviews] *)
Definition get_reviews (book_id : Z) : M (list models.Review.t) :=
  crud.get_reviews_by_book_id book_id.

(** [POST /books/{book_id}/reviews] *)
Definition add_review (book_id : Z) (review : schemas.ReviewCreate.t) : M models.Review.t :=
  crud.add_review book_id review.

End books.

(** ** What the store holds, as [GET /books] reports it *)

Definition book_out (d : store.Database) (book : models.Book.t) : schemas.BookOut.t :=
  schemas.BookOut.mk (models.Book.title book) (models.Book.author book) (models.Book.id book)
    (map schemas.ReviewOut.model_validate (store.select_reviews d (models.Book.id book))).

(** The collection of books of the store with their reviews *)
Definition collection (d : store.Database) : list schemas.BookOut.t :=
  map (book_out d) (store.select_books d).

(** The value a handler returns for a collection, and its serialized
    snapshot *)
Definition dump_books (bs : list schemas.BookOut.t) : json :=
  JList (map schemas.BookOut.model_dump bs).

Definition snapshot (bs : list schemas.BookOut.t) : str := json_dumps (dump_books bs).

(** ** Well-formed stores *)

(** The text columns hold Unicode text *)
Definition valid_book (b : models.Book.t) : Prop :=
  valid_text (models.Book.title b) /\ valid_text (models.Book.author b).

Definition valid_review (r : models.Review.t) : Prop :=
  valid_text (models.Review.content r).

Definition valid_db (d : store.Database) : Prop :=
  Forall valid_book (store.books d) /\ Forall valid_review (store.reviews d).

Definition valid_review_out (r : schemas.ReviewOut.t) : Prop :=
  valid_text (schemas.ReviewOut.content r).

Definition valid_book_out (b : schemas.BookOut.t) : Prop :=
  valid_text (schemas.BookOut.title b) /\ valid_text (schemas.BookOut.author b) /\
  Forall valid_review_out (schemas.BookOut.reviews b).

(** Referential integrity: every review references a book of the store *)
Definition referential_integrity (d : store.Database) : Prop :=
  Forall (fun r => exists i, models.Review.book_id r = Some i /\
                             store.book_exists d i = true) (store.reviews d).

(** ** Values that [json.dumps] and [json.loads] carry back and forth

    Text is Unicode text, the keys of a [dict] are distinct, and there is
    no float. *)
#[warnings="-register-all"]
Inductive wf_json : json → Prop :=
| wf_JNull : wf_json JNull
| wf_JBool b : wf_json (JBool b)
| wf_JInt n : wf_json (JInt n)
| wf_JStr s : valid_text s → wf_json (JStr s)
| wf_JList l : Forall wf_json l → wf_json (JList l)
| wf_JDict d :
    NoDup (map fst d) →
    Forall (fun kv => valid_text (fst kv) ∧ wf_json (snd kv)) d →
    wf_json (JDict d).

(** The depth of recursion that reading a value back takes *)
Fixpoint json_size (v : json) : nat :=
  match v with
  | JList l => S (list_sum (map (fun x => S (json_size x)) l))
  | JDict d => S (list_sum (map (fun kv => S (json_size (snd kv))) d))
  | _ => 1%nat
  end.

(** The text after a number: neither a digit, nor the start of a
    fraction or of an exponent *)
Definition number_end (rest : str) : Prop :=
  match rest with
  | [] => True
  | c :: _ => is_digit c = false ∧ c ≠ DOT ∧ c ≠ 101 ∧ c ≠ 69
  end.

(** The first character of a serialized value *)
Definition value_start (c : Z) : Prop :=
  is_ws c = false ∧ c ≠ RBRACKET ∧ c ≠ RBRACE.

(** A key and its value, after the opening quote of the key *)
Definition pair_body (kv : str * json) : str :=
  flat_map escape_char (fst kv) ++ DQUOTE :: COLON :: 32 :: json_dumps (snd kv).

(** What reading a value back amounts to: with enough fuel, and before
    text that does not continue a number, [scan_once] returns the value
    and the text after it *)
Definition reads_back (v : json) : Prop :=
  ∀ fuel rest, (json_size v <= fuel)%nat → number_end rest →
    scan_once fuel (json_dumps v ++ rest) = Some (v, rest).

(** A scanner is fuel-adequate at [fuel] when whatever it reads with that
    fuel it also reads with any fuel of at least twice the length of the
    text it consumes, and it consumes at least one character *)
Definition adequate {A} (scan : nat → str → option (A * str)) (fuel : nat) : Prop :=
  ∀ s v r, scan fuel s = Some (v, r) →
    (length r < length s)%nat ∧
    ∀ fuel', (2 * (length s - length r) <= fuel')%nat → scan fuel' s = Some (v, r).

(** ** Some worlds *)

Definition alchemist : schemas.BookCreate.t :=
  schemas.BookCreate.mk (py "The Alchemist") (py "Paulo Coelho").

Definition habits : schemas.BookCreate.t :=
  schemas.BookCreate.mk (py "Atomic Habits") (py "James Clear").

(** An empty store, an empty cache that answers *)
Definition w_empty : World := mkWorld store.empty ∅ 0 [] [].

(** One book with one review; nothing cached yet *)
Definition w_cold : World :=
  snd (books.add_review 1 (schemas.ReviewCreate.mk (py "A fable"))
         (snd (books.add_book alchemist w_empty))).

(** The same after a first [GET /books] *)
Definition w_warm : World := snd (books.list_books w_cold).

(** The cache backend is unreachable *)
Definition w_down : World :=
  set_faults [Some ConnectionError; Some ConnectionError] w_cold.

(** The entry holds text that is not JSON *)
Definition w_garbled : World :=
  set_cache (<[books.cache_key := (py "<html>", 300)]> ∅) w_cold.

(** The entry holds the empty string *)
Definition w_blank : World :=
  set_cache (<[books.cache_key := ([], 300)]> ∅) w_cold.

(** A collection with text outside ASCII, a quote, a line feed and a
    character outside the basic plane *)
Definition sample_books : list schemas.BookOut.t :=
  [schemas.BookOut.mk [76; 8217; 201; 116; 114; 97; 110; 103; 101; 114] (py "Albert Camus") 1
     [schemas.ReviewOut.mk [34; 97; 98; 115; 117; 114; 100; 101; 34; 10; 128512] 1;
      schemas.ReviewOut.mk (py "C:\books") 2];
   schemas.BookOut.mk (py "Atomic Habits") (py "James Clear") (-2) []].
(** ** Runs of the service

    The four routes of [app/routers/books.py], the world after a request
    has been served, and the worlds that a sequence of requests and
    waits leads to. *)

Inductive request : Type :=
| GetBooks                                                      (* GET /books *)
| PostBook (book : schemas.BookCreate.t)                        (* POST /books *)
| GetReviews (book_id : Z)                                      (* GET /books/{book_id}/reviews *)
| PostReview (book_id : Z) (review : schemas.ReviewCreate.t).   (* POST /books/{book_id}/reviews *)

Definition serve (r : request) (w : World) : World :=
  match r with
  | GetBooks => snd (books.list_books w)
  | PostBook book => snd (books.add_book book w)
  | GetReviews book_id => snd (books.get_reviews book_id w)
  | PostReview book_id review => snd (books.add_review book_id review w)
  end.

(** A request is served, or time passes *)
Inductive step : Type :=
| Serve (r : request)
| Wait (seconds : Z).

Definition step_world (s : step) (w : World) : World :=
  match s with
  | Serve r => serve r w
  | Wait seconds => sleep seconds w
  end.

Fixpoint run (steps : list step) (w : World) : World :=
  match steps with
  | [] => w
  | s :: steps' => run steps' (step_world s w)
  end.

(** Requests carry Unicode text, and time does not go backwards *)
Definition valid_step (s : step) : Prop :=
  match s with
  | Serve (PostBook book) =>
      valid_text (schemas.BookCreate.title book) ∧ valid_text (schemas.BookCreate.author book)
  | Serve (PostReview _ review) => valid_text (schemas.ReviewCreate.content review)
  | Serve _ => True
  | Wait seconds => 0 <= seconds
  end.

(** The queries that a handler sends to the store *)
Definition is_store_query (ev : event) : bool :=
  match ev with
  | SelectBooks | SelectReviews _ => true
  | _ => false
  end.

(** The characters that [json.dumps] writes with [ensure_ascii]: printable
    ASCII *)
Definition printable (c : Z) : Prop := 32 <= c <= 126.


(** * Properties *)

(** ** [json.dumps] followed by [json.loads]: strings *)

Section Strings.

Lemma hex_val_hex_digit k : 0 <= k < 16 → hex_val (hex_digit k) = Some k.
Proof.
  intros Hk.
  assert (k = 0 ∨ k = 1 ∨ k = 2 ∨ k = 3 ∨ k = 4 ∨ k = 5 ∨ k = 6 ∨ k = 7 ∨
          k = 8 ∨ k = 9 ∨ k = 10 ∨ k = 11 ∨ k = 12 ∨ k = 13 ∨ k = 14 ∨ k = 15)
    as Hcases by lia.
  repeat (destruct Hcases as [->|Hcases]; [reflexivity|]). by subst.
Qed.

Lemma decode_u_escape n :
  0 <= n < 65536 →
  decode_uXXXX (hex_digit (n / 4096 mod 16)) (hex_digit (n / 256 mod 16))
               (hex_digit (n / 16 mod 16)) (hex_digit (n mod 16)) = Some n.
Proof.
  intros Hn. unfold decode_uXXXX.
  rewrite !hex_val_hex_digit by (apply Z.mod_pos_bound; lia).
  simpl. f_equal. Z.div_mod_to_equations. lia.
Qed.

Lemma land_high_low k x : 0 <= x < 1024 → Z.land (k * 1024) x = 0.
Proof.
  intros Hx. apply Z.bits_inj'. intros i Hi.
  rewrite Z.land_spec, Z.bits_0.
  destruct (Z.lt_ge_cases i 10) as [Hlt|Hge].
  - change 1024 with (2 ^ 10). rewrite Z.mul_pow2_bits_low by lia. reflexivity.
  - rewrite <- (Z.mod_small x 1024) by lia. change 1024 with (2 ^ 10).
    rewrite Z.mod_pow2_bits_high by lia. apply andb_false_r.
Qed.

Lemma lor_high_low k x : 0 <= x < 1024 → Z.lor (k * 1024) x = k * 1024 + x.
Proof.
  intros Hx. rewrite <- Z.lxor_lor by (by apply land_high_low).
  symmetry. apply Z.add_nocarry_lxor. by apply land_high_low.
Qed.

(** The surrogate pair of the encoder, read back by the decoder *)
Lemma surrogate_pair c :
  65536 <= c <= 1114111 →
  let n := c - 65536 in
  let s1 := Z.lor 55296 (Z.land (Z.shiftr n 10) 1023) in
  let s2 := Z.lor 56320 (Z.land n 1023) in
  55296 <= s1 <= 56319 ∧ 56320 <= s2 <= 57343 ∧
  65536 + Z.lor (Z.shiftl (s1 - 55296) 10) (s2 - 56320) = c.
Proof.
  intros Hc n s1 s2.
  assert (Hn : 0 <= n < 1048576) by (subst n; lia).
  assert (Hs1 : s1 = 55296 + n / 1024).
  { subst s1. rewrite Z.shiftr_div_pow2 by lia. change (2 ^ 10) with 1024.
    change 1023 with (Z.ones 10). rewrite Z.land_ones by lia. change (2 ^ 10) with 1024.
    rewrite (Z.mod_small (n / 1024)) by (Z.div_mod_to_equations; lia).
    change 55296 with (54 * 1024) at 1. rewrite lor_high_low; [lia|].
    Z.div_mod_to_equations; lia. }
  assert (Hs2 : s2 = 56320 + n mod 1024).
  { subst s2. change 1023 with (Z.ones 10). rewrite Z.land_ones by lia.
    change (2 ^ 10) with 1024. change 56320 with (55 * 1024) at 1.
    rewrite lor_high_low; [lia|]. Z.div_mod_to_equations; lia. }
  rewrite Hs1, Hs2. split_and!; try (Z.div_mod_to_equations; lia).
  replace (55296 + n / 1024 - 55296) with (n / 1024) by lia.
  replace (56320 + n mod 1024 - 56320) with (n mod 1024) by lia.
  rewrite Z.shiftl_mul_pow2 by lia. change (2 ^ 10) with 1024.
  rewrite lor_high_low by (Z.div_mod_to_equations; lia).
  subst n. Z.div_mod_to_equations; lia.
Qed.

(** The steps of [scanstring] *)

Lemma scanstring_plain c t :
  c ≠ DQUOTE → c ≠ BACKSLASH → 32 <= c →
  scanstring (c :: t) = '(chunk, rest) ← scanstring t; Some (c :: chunk, rest).
Proof.
  intros H1 H2 H3. cbn [scanstring].
  rewrite (proj2 (Z.eqb_neq c DQUOTE)), (proj2 (Z.eqb_neq c BACKSLASH)) by done.
  replace (c <? 32) with false by (symmetry; apply Z.ltb_ge; lia).
  by rewrite andb_false_r.
Qed.

Lemma scanstring_escape e ch t :
  e ≠ 117 → unescape e = Some ch →
  scanstring (BACKSLASH :: e :: t) = '(chunk, rest) ← scanstring t; Some (ch :: chunk, rest).
Proof.
  intros H1 H2. cbn [scanstring]. change (BACKSLASH =? DQUOTE) with false.
  change (BACKSLASH =? BACKSLASH) with true. cbv iota.
  rewrite (proj2 (Z.eqb_neq e 117)) by done. by rewrite H2.
Qed.

Lemma scanstring_u h1 h2 h3 h4 uni t :
  decode_uXXXX h1 h2 h3 h4 = Some uni → is_high_surrogate uni = false →
  scanstring (BACKSLASH :: 117 :: h1 :: h2 :: h3 :: h4 :: t) =
  '(chunk, rest) ← scanstring t; Some (uni :: chunk, rest).
Proof.
  intros H1 H2. cbn [scanstring]. change (BACKSLASH =? DQUOTE) with false.
  change (BACKSLASH =? BACKSLASH) with true. change (117 =? 117) with true. cbv iota.
  rewrite H1, H2. cbn [andb].
  by destruct t as [|? [|? [|? [|? [|? [|? ?]]]]]].
Qed.

Lemma scanstring_pair h1 h2 h3 h4 l1 l2 l3 l4 uni uni2 t :
  decode_uXXXX h1 h2 h3 h4 = Some uni → is_high_surrogate uni = true →
  decode_uXXXX l1 l2 l3 l4 = Some uni2 → is_low_surrogate uni2 = true →
  scanstring (BACKSLASH :: 117 :: h1 :: h2 :: h3 :: h4 ::
              BACKSLASH :: 117 :: l1 :: l2 :: l3 :: l4 :: t) =
  '(chunk, rest) ← scanstring t;
  Some ((65536 + Z.lor (Z.shiftl (uni - 55296) 10) (uni2 - 56320)) :: chunk, rest).
Proof.
  intros H1 H2 H3 H4. cbn [scanstring]. change (BACKSLASH =? DQUOTE) with false.
  change (BACKSLASH =? BACKSLASH) with true. change (117 =? 117) with true. cbv iota.
  rewrite H1, H2. cbn [andb]. by rewrite H3, H4.
Qed.

(** One character of a string, escaped and read back *)
Lemma scanstring_escape_char c t chunk rest :
  is_scalar c = true →
  scanstring t = Some (chunk, rest) →
  scanstring (escape_char c ++ t) = Some (c :: chunk, rest).
Proof.
  intros Hc Ht. unfold is_scalar in Hc. unfold escape_char.
  destruct (Z.eqb_spec c DQUOTE) as [->|?].
  { cbn [app]. rewrite (scanstring_escape _ DQUOTE), Ht; done. }
  destruct (Z.eqb_spec c BACKSLASH) as [->|?].
  { cbn [app]. rewrite (scanstring_escape _ BACKSLASH), Ht; done. }
  destruct (Z.eqb_spec c 10) as [->|?].
  { cbn [app]. rewrite (scanstring_escape _ 10), Ht; done. }
  destruct (Z.eqb_spec c 13) as [->|?].
  { cbn [app]. rewrite (scanstring_escape _ 13), Ht; done. }
  destruct (Z.eqb_spec c 9) as [->|?].
  { cbn [app]. rewrite (scanstring_escape _ 9), Ht; done. }
  destruct (Z.eqb_spec c 8) as [->|?].
  { cbn [app]. rewrite (scanstring_escape _ 8), Ht; done. }
  destruct (Z.eqb_spec c 12) as [->|?].
  { cbn [app]. rewrite (scanstring_escape _ 12), Ht; done. }
  destruct ((32 <=? c) && (c <=? 126)) eqn:Hp.
  { cbn [app]. rewrite scanstring_plain, Ht; [done..|lia]. }
  destruct (Z.ltb_spec c 65536) as [Hlt|Hge].
  - unfold u_escape. cbn [app].
    rewrite (scanstring_u _ _ _ _ c), Ht; [done| |].
    + apply decode_u_escape. lia.
    + unfold is_high_surrogate. lia.
  - assert (Hr : 65536 <= c <= 1114111) by lia.
    destruct (surrogate_pair c Hr) as (Hs1 & Hs2 & Heq). cbv zeta in *.
    set (s1 := Z.lor 55296 _) in *. set (s2 := Z.lor 56320 _) in *.
    unfold u_escape. cbn [app].
    rewrite (scanstring_pair _ _ _ _ _ _ _ _ s1 s2), Ht.
    + cbn. by rewrite Heq.
    + apply decode_u_escape. lia.
    + unfold is_high_surrogate. lia.
    + apply decode_u_escape. lia.
    + unfold is_low_surrogate. lia.
Qed.

(** [scanstring] reads back what [encode_basestring_ascii] wrote *)
Lemma scanstring_encode s rest :
  valid_text s →
  scanstring (flat_map escape_char s ++ DQUOTE :: rest) = Some (s, rest).
Proof.
  induction 1 as [|c s Hc _ IH]; [done|].
  cbn [flat_map]. rewrite <- app_assoc. by apply scanstring_escape_char.
Qed.

End Strings.

(** ** [json.dumps] followed by [json.loads]: integers *)

Section Integers.

Lemma codes_uint_codes d : codes_uint (uint_codes d) = d.
Proof. induction d; cbn; by f_equal. Qed.

Lemma uint_codes_digits d : Forall (fun c => is_digit c = true) (uint_codes d).
Proof. induction d; cbn [uint_codes]; by constructor. Qed.

Lemma span_digits_app ds rest :
  Forall (fun c => is_digit c = true) ds → number_end rest →
  span_digits (ds ++ rest) = (ds, rest).
Proof.
  intros Hds Hrest. induction Hds as [|c ds Hc _ IH]; cbn [app span_digits].
  - destruct rest as [|c rest]; [done|]. cbn [span_digits].
    destruct Hrest as (-> & _). done.
  - by rewrite Hc, IH.
Qed.

Lemma match_frac_end rest : number_end rest → match_frac rest = ([], rest).
Proof.
  destruct rest as [|c rest]; [done|]. intros (_ & Hdot & _). cbn [match_frac].
  by rewrite (proj2 (Z.eqb_neq c DOT)).
Qed.

Lemma match_exp_end rest : number_end rest → match_exp rest = ([], rest).
Proof.
  destruct rest as [|c rest]; [done|]. intros (_ & _ & He1 & He2). cbn [match_exp].
  by rewrite (proj2 (Z.eqb_neq c 101)), (proj2 (Z.eqb_neq c 69)).
Qed.

(** The digits of a positive number do not start with a zero *)
Lemma to_uint_shape p :
  ∃ c cs, uint_codes (Pos.to_uint p) = c :: cs ∧ is_digit c = true ∧ c ≠ 48.
Proof.
  assert (Hn : Decimal.unorm (Pos.to_uint p) = Pos.to_uint p).
  { rewrite <- DecimalPos.Unsigned.to_of, DecimalPos.Unsigned.of_to. reflexivity. }
  pose proof (DecimalPos.Unsigned.to_uint_nonzero p) as Hz.
  pose proof (DecimalFacts.nzhead_nonzero (Pos.to_uint p)) as Hh.
  unfold Decimal.unorm in Hn.
  destruct (Decimal.nzhead (Pos.to_uint p)) eqn:Hd; [done|..]; rewrite <- Hn;
    try (by eexists _, _; split_and!; [reflexivity|reflexivity|done]).
  by destruct (Hh u).
Qed.

Lemma int_repr_shape n :
  ∃ c cs, int_repr n = c :: cs ∧ (is_digit c = true ∨ c = MINUS).
Proof.
  destruct n as [|p|p]; unfold int_repr; cbn [Z.to_int].
  - eexists _, _. split; [reflexivity|by left].
  - destruct (to_uint_shape p) as (c & cs & -> & Hc & _). eexists _, _. split; [done|by left].
  - eexists _, _. split; [reflexivity|by right].
Qed.

Lemma int_of_text_repr n : int_of_text (int_repr n) = n.
Proof.
  rewrite <- (DecimalZ.of_to n) at 2.
  destruct n as [|p|p]; unfold int_repr; cbn [Z.to_int].
  - reflexivity.
  - destruct (to_uint_shape p) as (c & cs & Heq & Hc & _).
    rewrite Heq. cbn [int_of_text].
    replace (c =? MINUS) with false.
    + by rewrite <- Heq, codes_uint_codes.
    + symmetry. apply Z.eqb_neq. unfold is_digit, MINUS in *. lia.
  - cbn [int_of_text]. change (MINUS =? MINUS) with true. cbv iota.
    by rewrite codes_uint_codes.
Qed.

Lemma match_integer_repr n rest :
  number_end rest → match_integer (int_repr n ++ rest) = Some (int_repr n, rest).
Proof.
  intros Hrest. destruct n as [|p|p]; unfold int_repr; cbn [Z.to_int].
  - reflexivity.
  - destruct (to_uint_shape p) as (c & cs & Heq & Hc & Hnz).
    pose proof (uint_codes_digits (Pos.to_uint p)) as Hds. rewrite Heq in *.
    apply Forall_cons in Hds as [_ Hds].
    unfold match_integer. cbn [app].
    replace (c =? MINUS) with false
      by (symmetry; apply Z.eqb_neq; unfold is_digit, MINUS in *; lia).
    rewrite (proj2 (Z.eqb_neq c 48)), Hc by done.
    by rewrite span_digits_app.
  - destruct (to_uint_shape p) as (c & cs & Heq & Hc & Hnz).
    pose proof (uint_codes_digits (Pos.to_uint p)) as Hds. rewrite Heq in *.
    apply Forall_cons in Hds as [_ Hds].
    unfold match_integer. cbn [app]. change (MINUS =? MINUS) with true. cbv iota.
    rewrite (proj2 (Z.eqb_neq c 48)), Hc by done.
    by rewrite span_digits_app.
Qed.

Lemma scan_number_repr n rest :
  number_end rest → scan_number (int_repr n ++ rest) = Some (JInt n, rest).
Proof.
  intros Hrest. unfold scan_number.
  rewrite match_integer_repr by done. cbn.
  rewrite match_frac_end, match_exp_end by done.
  by rewrite int_of_text_repr.
Qed.

Lemma strip_prefix_head a w c s : a ≠ c → strip_prefix (a :: w) (c :: s) = None.
Proof. intros H. cbn. by rewrite (proj2 (Z.eqb_neq a c)). Qed.

Lemma scan_atom_repr n rest :
  number_end rest → scan_atom (int_repr n ++ rest) = Some (JInt n, rest).
Proof.
  intros Hrest. unfold scan_atom. rewrite scan_number_repr by done.
  destruct (int_repr_shape n) as (c & cs & -> & Hc). cbn [app].
  assert (c ≠ 110 ∧ c ≠ 116 ∧ c ≠ 102) as (? & ? & ?)
    by (unfold is_digit, MINUS in Hc; lia).
  change (py "null") with (110 :: py "ull"). change (py "true") with (116 :: py "rue").
  change (py "false") with (102 :: py "alse").
  by rewrite !strip_prefix_head.
Qed.

End Integers.

(** ** [json.dumps] followed by [json.loads]: values *)

Section Values.

Lemma json_ind (P : json → Prop) :
  P JNull → (∀ b, P (JBool b)) → (∀ n, P (JInt n)) → (∀ lit, P (JFloat lit)) →
  (∀ s, P (JStr s)) →
  (∀ l, Forall P l → P (JList l)) →
  (∀ d, Forall (fun kv => P (snd kv)) d → P (JDict d)) →
  ∀ v, P v.
Proof.
  intros Hnull Hbool Hint Hfloat Hstr Hlist Hdict.
  fix IH 1. intros [ | b | n | lit | s | l | d].
  - exact Hnull.
  - apply Hbool.
  - apply Hint.
  - apply Hfloat.
  - apply Hstr.
  - apply Hlist. induction l as [|x l IHl]; constructor; [apply IH | exact IHl].
  - apply Hdict. induction d as [|[k x] d IHd]; constructor; [apply IH | exact IHd].
Qed.

Lemma join_sep_cons sep p ps :
  join_sep sep (p :: ps) =
  p ++ match ps with [] => [] | _ :: _ => sep ++ join_sep sep ps end.
Proof. destruct ps; cbn [join_sep]; by rewrite ?app_nil_r. Qed.

Lemma dumps_head v :
  wf_json v → ∃ c cs, json_dumps v = c :: cs ∧ value_start c.
Proof.
  destruct 1 as [ | [|] | n | s Hs | l Hl | d Hk Hd]; cbn [json_dumps];
    try (by eexists _, _; split; [reflexivity|done]).
  destruct (int_repr_shape n) as (c & cs & -> & Hc). eexists _, _. split; [done|].
  unfold value_start, is_ws, is_digit, RBRACKET, RBRACE, MINUS in *. lia.
Qed.

Lemma sep_comma : py ", " = [COMMA; 32].
Proof. reflexivity. Qed.

Lemma sep_colon : py ": " = [COLON; 32].
Proof. reflexivity. Qed.

Lemma skip_ws_nonws c t : is_ws c = false → skip_ws (c :: t) = c :: t.
Proof. intros H. cbn. by rewrite H. Qed.

Lemma skip_ws_space t : skip_ws (32 :: t) = skip_ws t.
Proof. reflexivity. Qed.

Lemma skip_ws_start c t : value_start c → skip_ws (c :: t) = c :: t.
Proof. intros (H & _). cbn. by rewrite H. Qed.

Lemma skip_ws_dumps v rest :
  wf_json v → skip_ws (json_dumps v ++ rest) = json_dumps v ++ rest.
Proof.
  intros (c & cs & -> & Hc)%dumps_head. by apply skip_ws_start.
Qed.

Lemma number_end_delim c t : c = COMMA ∨ c = RBRACKET ∨ c = RBRACE → number_end (c :: t).
Proof. intros [ -> | [ -> | -> ] ]; by split_and!. Qed.

(** A list of pairs with distinct keys is the [dict] it builds *)
Lemma dict_set_fresh k v d : k ∉ map fst d → dict_set k v d = d ++ [(k, v)].
Proof.
  induction d as [|[k' v'] d IH]; cbn [dict_set map fst app]; [done|].
  rewrite not_elem_of_cons. intros [Hne Hd].
  rewrite bool_decide_eq_false_2 by done. by rewrite IH.
Qed.

Lemma fold_dict_set pairs acc :
  NoDup (map fst (acc ++ pairs)) →
  fold_left (fun d kv => dict_set (fst kv) (snd kv) d) pairs acc = acc ++ pairs.
Proof.
  revert acc. induction pairs as [|[k v] pairs IH]; intros acc Hnd; cbn [fold_left].
  - by rewrite app_nil_r.
  - cbn [fst snd]. rewrite dict_set_fresh.
    + rewrite IH; rewrite <- app_assoc; done.
    + rewrite map_app in Hnd. cbn in Hnd. apply NoDup_app in Hnd as (_ & Hnd & _).
      intros Hin. apply (Hnd k Hin). by left.
Qed.

Lemma dict_of_pairs_NoDup d : NoDup (map fst d) → dict_of_pairs d = d.
Proof. intros Hnd. unfold dict_of_pairs. by rewrite fold_dict_set. Qed.

(** The steps of [scan_once] *)

Lemma scan_once_string fuel t :
  scan_once (S fuel) (DQUOTE :: t) = '(x, r) ← scanstring t; Some (JStr x, r).
Proof. reflexivity. Qed.

Lemma scan_once_object fuel t :
  scan_once (S fuel) (LBRACE :: t) =
  match skip_ws t with
  | c1 :: t1 =>
    if c1 =? RBRACE then Some (JDict [], t1)
    else if c1 =? DQUOTE then
      '(pairs, r) ← JSONObject fuel t1; Some (JDict (dict_of_pairs pairs), r)
    else None
  | [] => None
  end.
Proof. reflexivity. Qed.

Lemma scan_once_array fuel t :
  scan_once (S fuel) (LBRACKET :: t) =
  match skip_ws t with
  | c1 :: t1 =>
    if c1 =? RBRACKET then Some (JList [], t1)
    else '(values, r) ← JSONArray fuel (c1 :: t1); Some (JList values, r)
  | [] => None
  end.
Proof. reflexivity. Qed.

Lemma scan_once_atom fuel c t :
  c ≠ DQUOTE → c ≠ LBRACE → c ≠ LBRACKET →
  scan_once (S fuel) (c :: t) = scan_atom (c :: t).
Proof.
  intros H1 H2 H3. cbn [scan_once].
  by rewrite (proj2 (Z.eqb_neq c DQUOTE)), (proj2 (Z.eqb_neq c LBRACE)),
    (proj2 (Z.eqb_neq c LBRACKET)).
Qed.

Lemma JSONArray_step fuel s :
  JSONArray (S fuel) s =
  '(value, s1) ← scan_once fuel s;
  match skip_ws s1 with
  | c :: t =>
    if c =? RBRACKET then Some ([value], t)
    else if c =? COMMA then
      '(values, r) ← JSONArray fuel (skip_ws t); Some (value :: values, r)
    else None
  | [] => None
  end.
Proof. reflexivity. Qed.

Lemma JSONObject_step fuel s :
  JSONObject (S fuel) s =
  '(key, s1) ← scanstring s;
  match skip_ws s1 with
  | c :: t =>
    if c =? COLON then
      '(value, s2) ← scan_once fuel (skip_ws t);
      match skip_ws s2 with
      | c2 :: t2 =>
        if c2 =? RBRACE then Some ([(key, value)], t2)
        else if c2 =? COMMA then
          match skip_ws t2 with
          | c3 :: t3 =>
            if c3 =? DQUOTE then
              '(pairs, r) ← JSONObject fuel t3; Some ((key, value) :: pairs, r)
            else None
          | [] => None
          end
        else None
      | [] => None
      end
    else None
  | [] => None
  end.
Proof. reflexivity. Qed.

Lemma JSONArray_dumps l :
  l ≠ [] → Forall wf_json l → Forall reads_back l →
  ∀ fuel rest,
    (list_sum (map (fun x => S (json_size x)) l) <= fuel)%nat →
    JSONArray fuel (join_sep (py ", ") (map json_dumps l) ++ RBRACKET :: rest) =
    Some (l, rest).
Proof.
  intros Hne Hwf Hrb. induction Hrb as [|v l Hv Hl IH]; [done|].
  apply Forall_cons in Hwf as [Hwv Hwl].
  intros fuel rest Hfuel. cbn [map list_sum fold_right] in Hfuel.
  destruct fuel as [|fuel]; [lia|]. rewrite JSONArray_step.
  cbn [map]. rewrite join_sep_cons.
  destruct l as [|v' l'].
  - cbn [map app]. rewrite app_nil_r.
    rewrite Hv; [|cbn in Hfuel; lia|apply number_end_delim; auto].
    reflexivity.
  - rewrite sep_comma in *. cbn [map]. rewrite <- !app_assoc. cbn [app].
    rewrite Hv; [|lia|apply number_end_delim; auto].
    cbn [mbind option_bind]. rewrite skip_ws_nonws by done.
    change (COMMA =? RBRACKET) with false. change (COMMA =? COMMA) with true. cbv iota.
    rewrite skip_ws_space.
    assert (H' : skip_ws (join_sep [COMMA; 32] (json_dumps v' :: map json_dumps l') ++
                          RBRACKET :: rest) =
                 join_sep [COMMA; 32] (json_dumps v' :: map json_dumps l') ++ RBRACKET :: rest).
    { rewrite join_sep_cons, <- app_assoc. apply skip_ws_dumps.
      by apply Forall_cons in Hwl as [? _]. }
    rewrite H'. change (json_dumps v' :: map json_dumps l') with (map json_dumps (v' :: l')).
    rewrite (IH ltac:(done) Hwl fuel rest); [done|]. unfold list_sum. lia.
Qed.

Lemma pair_text kv :
  encode_basestring_ascii (fst kv) ++ py ": " ++ json_dumps (snd kv) =
  DQUOTE :: pair_body kv.
Proof.
  unfold encode_basestring_ascii, pair_body. rewrite sep_colon.
  cbn [app]. by rewrite <- app_assoc.
Qed.

Lemma JSONObject_dumps d :
  d ≠ [] →
  Forall (fun kv => valid_text (fst kv) ∧ wf_json (snd kv)) d →
  Forall (fun kv => reads_back (snd kv)) d →
  ∀ fuel rest,
    (list_sum (map (fun kv => S (json_size (snd kv))) d) <= fuel)%nat →
    JSONObject fuel
      (tail (join_sep [COMMA; 32] (map (fun kv => DQUOTE :: pair_body kv) d) ++
             RBRACE :: rest)) =
    Some (d, rest).
Proof.
  intros Hne Hwf Hrb. induction Hrb as [|[k v] d Hv Hd IH]; [done|].
  apply Forall_cons in Hwf as [[Hk Hwv] Hwd]. cbn [fst snd] in *.
  intros fuel rest Hfuel. unfold list_sum in *. cbn [map foldr fst snd] in Hfuel.
  destruct fuel as [|fuel]; [lia|]. rewrite JSONObject_step.
  cbn [map]. rewrite join_sep_cons. cbn [app tail]. unfold pair_body at 1. cbn [fst snd].
  rewrite <- !app_assoc. cbn [app].
  match goal with |- context [json_dumps v ++ ?X] => set (after := X) end.
  rewrite scanstring_encode by done.
  cbn [mbind option_bind app]. rewrite skip_ws_nonws by done.
  change (COLON =? COLON) with true. cbv iota. rewrite skip_ws_space.
  rewrite skip_ws_dumps by done.
  destruct d as [|kv' d'].
  - subst after. cbn [map app]. rewrite Hv; [|lia|apply number_end_delim; auto].
    reflexivity.
  - subst after. cbn [map app]. rewrite Hv; [|lia|apply number_end_delim; auto].
    cbn [mbind option_bind]. rewrite skip_ws_nonws by done.
    change (COMMA =? RBRACE) with false. change (COMMA =? COMMA) with true. cbv iota.
    rewrite skip_ws_space.
    specialize (IH ltac:(done) Hwd fuel rest). cbn [map] in IH.
    rewrite join_sep_cons in IH. cbn [app tail] in IH.
    rewrite join_sep_cons. cbn [app]. rewrite skip_ws_nonws by done.
    change (DQUOTE =? DQUOTE) with true. cbv iota.
    rewrite IH; [done|]. cbn [map foldr] in *. lia.
Qed.

(** [scan_once] reads back what [json_dumps] wrote *)
Lemma scan_once_dumps v : wf_json v → reads_back v.
Proof.
  induction v as [ | b | n | lit | s | l IH | d IH] using json_ind;
    intros Hwf fuel rest Hfuel Hrest;
    (destruct fuel as [|fuel]; [cbn in Hfuel; lia|]).
  - reflexivity.
  - by destruct b.
  - cbn [json_dumps].
    destruct (int_repr_shape n) as (c & cs & Heq & Hc).
    pose proof (scan_atom_repr n rest Hrest) as Ha. rewrite Heq in *. cbn [app] in *.
    rewrite scan_once_atom; [done|..];
      unfold is_digit, MINUS, DQUOTE, LBRACE, LBRACKET in *; lia.
  - inversion Hwf.
  - inversion Hwf as [ | | | s' Hs | | ]; subst.
    cbn [json_dumps]. unfold encode_basestring_ascii. cbn [app].
    rewrite scan_once_string, <- app_assoc. cbn [app].
    by rewrite scanstring_encode.
  - inversion Hwf as [ | | | | l' Hl | ]; subst.
    cbn [json_dumps app]. rewrite scan_once_array, <- app_assoc. cbn [app].
    destruct l as [|v l].
    + reflexivity.
    + assert (Hrb : Forall reads_back (v :: l)).
      { clear -IH Hl. induction IH as [|x l0 Hx _ IHl]; [done|].
        apply Forall_cons in Hl as [Hwx Hwl]. constructor; auto. }
      assert (Hl' := Hl). apply Forall_cons in Hl' as [Hv _].
      destruct (dumps_head v Hv) as (c & cs & Hd & Hc).
      assert (Hsz : (list_sum (map (fun x => S (json_size x)) (v :: l)) <= fuel)%nat)
        by (cbn [json_size] in Hfuel; lia).
      pose proof (JSONArray_dumps (v :: l) ltac:(done) Hl Hrb fuel rest Hsz) as Harr.
      cbn [map] in *. rewrite join_sep_cons, Hd, <- app_assoc in *. cbn [app] in *.
      rewrite skip_ws_start by done.
      rewrite (proj2 (Z.eqb_neq c RBRACKET)) by apply Hc.
      by rewrite Harr.
  - inversion Hwf as [ | | | | | d' Hnd Hd]; subst.
    cbn [json_dumps app]. rewrite scan_once_object, <- app_assoc. cbn [app].
    destruct d as [|kv d].
    + reflexivity.
    + assert (Hrb : Forall (fun kv => reads_back (snd kv)) (kv :: d)).
      { clear -IH Hd. induction IH as [|x l0 Hx _ IHl]; [done|].
        apply Forall_cons in Hd as [[_ Hwx] Hwl]. constructor; auto. }
      assert (Hsz : (list_sum (map (fun kv => S (json_size (snd kv))) (kv :: d)) <= fuel)%nat)
        by (cbn [json_size] in Hfuel; lia).
      pose proof (JSONObject_dumps (kv :: d) ltac:(done) Hd Hrb fuel rest Hsz) as Hobj.
      rewrite sep_comma.
      erewrite (map_ext _ (fun kv => DQUOTE :: pair_body kv)) by apply pair_text.
      cbn [map] in *. rewrite join_sep_cons in *. cbn [app tail] in *.
      rewrite skip_ws_nonws by done.
      change (DQUOTE =? RBRACE) with false. change (DQUOTE =? DQUOTE) with true. cbv iota.
      rewrite Hobj. cbn [mbind option_bind]. by rewrite dict_of_pairs_NoDup.
Qed.

End Values.

Section Decode.

Lemma length_join_list (l : list json) :
  Forall (fun v => (json_size v <= length (json_dumps v))%nat) l →
  (list_sum (map (fun x => S (json_size x)) l)
   <= length (join_sep (py ", ") (map json_dumps l)) + 1)%nat.
Proof.
  unfold list_sum. induction 1 as [|v l Hv Hl IH]; cbn [map foldr]; [cbn; lia|].
  rewrite join_sep_cons, length_app.
  destruct l as [|v' l']; [cbn [map foldr length]; lia|].
  cbn [map] in *. rewrite length_app. cbn [length py map list_ascii_of_string] in *. lia.
Qed.

Lemma length_join_dict (d : list (str * json)) :
  Forall (fun kv => (json_size (snd kv) <= length (json_dumps (snd kv)))%nat) d →
  (list_sum (map (fun kv => S (json_size (snd kv))) d)
   <= length (join_sep (py ", ")
        (map (fun kv => encode_basestring_ascii (fst kv) ++ py ": " ++ json_dumps (snd kv)) d))
      + 1)%nat.
Proof.
  unfold list_sum. induction 1 as [|[k v] d Hv Hd IH]; cbn [map foldr]; [cbn; lia|].
  rewrite join_sep_cons, !length_app. cbn [fst snd] in *.
  destruct d as [|kv' d']; [cbn [map foldr length]; lia|].
  cbn [map] in *. rewrite length_app. cbn [length py map list_ascii_of_string] in *. lia.
Qed.

Lemma json_size_length v : wf_json v → (json_size v <= length (json_dumps v))%nat.
Proof.
  induction v as [ | b | n | lit | s | l IH | d IH] using json_ind; intros Hwf.
  - cbn. lia.
  - destruct b; cbn; lia.
  - cbn [json_dumps json_size]. destruct (int_repr_shape n) as (c & cs & -> & _). cbn. lia.
  - inversion Hwf.
  - cbn. lia.
  - inversion Hwf as [ | | | | l' Hl | ]; subst.
    cbn [json_dumps json_size length]. rewrite length_app. cbn [length].
    assert (Hall : Forall (fun v => (json_size v <= length (json_dumps v))%nat) l).
    { clear -IH Hl. induction IH as [|x l0 Hx _ IHl]; [done|].
      apply Forall_cons in Hl as [Hwx Hwl]. constructor; auto. }
    pose proof (length_join_list l Hall). lia.
  - inversion Hwf as [ | | | | | d' Hnd Hd]; subst.
    cbn [json_dumps json_size length]. rewrite length_app. cbn [length].
    assert (Hall : Forall (fun kv => (json_size (snd kv) <= length (json_dumps (snd kv)))%nat) d).
    { clear -IH Hd. induction IH as [|x l0 Hx _ IHl]; [done|].
      apply Forall_cons in Hd as [[_ Hwx] Hwl]. constructor; auto. }
    pose proof (length_join_dict d Hall). lia.
Qed.

(** [json.loads(json.dumps(v)) == v] *)
Theorem json_decode_dumps v : wf_json v → json_decode (json_dumps v) = Some v.
Proof.
  intros Hwf. unfold json_decode.
  rewrite <- (app_nil_r (json_dumps v)) at 2.
  rewrite skip_ws_dumps by done.
  rewrite (scan_once_dumps v Hwf); [done| |done].
  pose proof (json_size_length v Hwf). lia.
Qed.

End Decode.

(** ** The fuel of the scanner

    What [scan_once] reads with some fuel, it reads with twice as much
    fuel as the text it consumes: [json_decode] never fails for lack of
    fuel. *)

Section Fuel.

Lemma skip_ws_length s : (length (skip_ws s) <= length s)%nat.
Proof.
induction s as [|c s IH]; cbn [skip_ws]; [done|].
destruct (is_ws c); cbn [length]; lia.
Qed.

Lemma scanstring_length s x r : scanstring s = Some (x, r) → (length r < length s)%nat.
Proof.
assert (Hn : ∀ n s, (length s <= n)%nat →
          ∀ x r, scanstring s = Some (x, r) → (length r < length s)%nat);
  [|by apply (Hn (length s))].
clear. intros n. induction n as [|n IHn]; intros s Hlen x r.
{ destruct s; [done|cbn in Hlen; lia]. }
assert (IH : ∀ t', (length t' < length s)%nat →
          ∀ x r, scanstring t' = Some (x, r) → (length r < length t')%nat).
{ intros t' Hlt. apply IHn. lia. }
destruct s as [|c t]; [done|]. cbn [scanstring].
assert (Hrec : ∀ t' y, (length t' < length (c :: t))%nat →
          ('(chunk, rest) ← scanstring t'; Some (y :: chunk, rest)) = Some (x, r) →
          (length r < length (c :: t))%nat).
{ intros t' y Hlt Heq. destruct (scanstring t') as [[chunk rest]|] eqn:Hs; [|done].
  cbn in Heq. simplify_eq. pose proof (IH t' Hlt _ _ Hs). lia. }
destruct (c =? DQUOTE); [intros [= <- <-]; cbn; lia|].
destruct (c =? BACKSLASH).
- destruct t as [|esc t1]; [done|].
  destruct (esc =? 117).
  + destruct t1 as [|h1 [|h2 [|h3 [|h4 t2]]]]; try done.
    destruct (decode_uXXXX h1 h2 h3 h4) as [uni|]; [|done].
    destruct t2 as [|b [|u [|l1 [|l2 [|l3 [|l4 t3]]]]]];
      try (destruct (is_high_surrogate uni && _); [done|];
           apply Hrec; cbn [length]; lia).
    destruct (is_high_surrogate uni && (b =? BACKSLASH) && (u =? 117)).
    * destruct (decode_uXXXX l1 l2 l3 l4) as [uni2|]; [|done].
      destruct (is_low_surrogate uni2); apply Hrec; cbn [length]; lia.
    * apply Hrec; cbn [length]; lia.
  + destruct (unescape esc) as [ch|]; [|done]. apply Hrec; cbn [length]; lia.
- destruct ((0 <=? c) && (c <? 32)); [done|]. apply Hrec; cbn [length]; lia.
Qed.

Lemma strip_prefix_length w s r :
strip_prefix w s = Some r → length s = (length w + length r)%nat.
Proof.
revert s. induction w as [|a w IH]; intros [|b s]; cbn [strip_prefix]; try done.
- by intros [= <-].
- by intros [= <-].
- destruct (a =? b); [|done]. intros H%IH. cbn [length]. lia.
Qed.

Lemma span_digits_length s : (length (snd (span_digits s)) <= length s)%nat.
Proof.
induction s as [|c s IH]; cbn [span_digits]; [done|].
destruct (is_digit c); [|done]. destruct (span_digits s) as [ds r]. cbn [snd length] in *. lia.
Qed.

Lemma match_integer_core sign s1 i r :
match s1 with
| c :: t =>
  if c =? 48 then Some (sign ++ [48], t)
  else if is_digit c then let '(ds, r) := span_digits t in Some (sign ++ c :: ds, r)
  else None
| [] => None
end = Some (i, r) → (length r < length s1)%nat.
Proof.
destruct s1 as [|c t]; [done|].
destruct (c =? 48); [intros [= _ <-]; cbn; lia|].
destruct (is_digit c); [|done].
pose proof (span_digits_length t) as Hl. destruct (span_digits t) as [ds r'].
intros [= _ <-]. cbn [snd length] in *. lia.
Qed.

Lemma match_integer_length s i r :
match_integer s = Some (i, r) → (length r < length s)%nat.
Proof.
unfold match_integer.
destruct s as [|c t]; [done|].
destruct (c =? MINUS).
- intros H%match_integer_core. cbn [length]. lia.
- apply (match_integer_core [] (c :: t)).
Qed.

Lemma match_frac_length s : (length (snd (match_frac s)) <= length s)%nat.
Proof.
destruct s as [|c t]; [done|]. cbn [match_frac].
destruct (c =? DOT); [|done].
pose proof (span_digits_length t) as Hl. destruct (span_digits t) as [[|d ds] r]; [done|].
cbn [snd length] in *. lia.
Qed.

Lemma match_exp_length s : (length (snd (match_exp s)) <= length s)%nat.
Proof.
destruct s as [|c t]; [done|]. cbn [match_exp].
destruct ((c =? 101) || (c =? 69)); [|done].
destruct t as [|g t'].
- done.
- destruct ((g =? MINUS) || (g =? PLUS)).
  + pose proof (span_digits_length t') as Hl.
    destruct (span_digits t') as [[|d ds] r]; [done|]. cbn [snd length] in *. lia.
  + pose proof (span_digits_length (g :: t')) as Hl.
    destruct (span_digits (g :: t')) as [[|d ds] r]; [done|]. cbn [snd length] in *. lia.
Qed.

Lemma scan_number_length s v r : scan_number s = Some (v, r) → (length r < length s)%nat.
Proof.
unfold scan_number.
destruct (match_integer s) as [[i s1]|] eqn:Hi; [|done]. cbn.
apply match_integer_length in Hi.
pose proof (match_frac_length s1) as Hf. destruct (match_frac s1) as [fr s2].
pose proof (match_exp_length s2) as He. destruct (match_exp s2) as [ex s3].
cbn [snd] in *.
destruct fr, ex; intros [= _ <-]; lia.
Qed.

Lemma scan_atom_length s v r : scan_atom s = Some (v, r) → (length r < length s)%nat.
Proof.
unfold scan_atom.
repeat match goal with
| |- context [strip_prefix ?w s] =>
  let H := fresh "H" in
  destruct (strip_prefix w s) eqn:H;
  [apply strip_prefix_length in H; cbn in H; intros [= _ <-]; lia|clear H]
| |- context [scan_number s] =>
  let H := fresh "H" in
  destruct (scan_number s) as [[? ?]|] eqn:H;
  [apply scan_number_length in H; intros [= _ <-]; lia|clear H]
end.
done.
Qed.

Lemma scan_adequate fuel :
adequate scan_once fuel ∧ adequate JSONArray fuel ∧ adequate JSONObject fuel.
Proof.
induction fuel as [|fuel (IHv & IHa & IHo)]; [by split_and!|].
split_and!; intros s v r H.
- destruct s as [|c t]; [done|].
  destruct (decide (c = DQUOTE)) as [->|Hq].
  { rewrite scan_once_string in H.
    destruct (scanstring t) as [[x r']|] eqn:Hs; [|done]. cbn in H. simplify_eq.
    pose proof (scanstring_length _ _ _ Hs). cbn [length]. split; [lia|].
    intros [|f'] Hf; [lia|]. by rewrite scan_once_string, Hs. }
  destruct (decide (c = LBRACE)) as [->|Hb].
  { rewrite scan_once_object in H.
    pose proof (skip_ws_length t) as Hw.
    destruct (skip_ws t) as [|c1 t1] eqn:Hsk; [done|]. cbn [length] in *.
    destruct (c1 =? RBRACE) eqn:Hc1.
    { simplify_eq. split; [lia|]. intros [|f'] Hf; [lia|].
      by rewrite scan_once_object, Hsk, Hc1. }
    destruct (c1 =? DQUOTE) eqn:Hc2; [|done].
    destruct (JSONObject fuel t1) as [[ps r']|] eqn:Ho; [|done]. cbn in H. simplify_eq.
    destruct (IHo _ _ _ Ho) as [Hlt Hmore]. split; [lia|].
    intros [|f'] Hf; [lia|].
    rewrite scan_once_object, Hsk, Hc1, Hc2, Hmore; [done|lia]. }
  destruct (decide (c = LBRACKET)) as [->|Hk].
  { rewrite scan_once_array in H.
    pose proof (skip_ws_length t) as Hw.
    destruct (skip_ws t) as [|c1 t1] eqn:Hsk; [done|]. cbn [length] in *.
    destruct (c1 =? RBRACKET) eqn:Hc1.
    { simplify_eq. split; [lia|]. intros [|f'] Hf; [lia|].
      by rewrite scan_once_array, Hsk, Hc1. }
    destruct (JSONArray fuel (c1 :: t1)) as [[vs r']|] eqn:Ha; [|done]. cbn in H. simplify_eq.
    destruct (IHa _ _ _ Ha) as [Hlt Hmore]. cbn [length] in *. split; [lia|].
    intros [|f'] Hf; [lia|].
    rewrite scan_once_array, Hsk, Hc1, Hmore; [done|cbn [length]; lia]. }
  rewrite scan_once_atom in H by done.
  pose proof (scan_atom_length _ _ _ H) as Hlt. split; [done|].
  intros [|f'] Hf; [lia|]. by rewrite scan_once_atom.
- rewrite JSONArray_step in H.
  destruct (scan_once fuel s) as [[value s1]|] eqn:Hv; [|done]. cbn in H.
  destruct (IHv _ _ _ Hv) as [Hlt1 Hmore1].
  pose proof (skip_ws_length s1) as Hw.
  destruct (skip_ws s1) as [|c t] eqn:Hsk; [done|]. cbn [length] in *.
  destruct (c =? RBRACKET) eqn:Hc1.
  { simplify_eq. split; [lia|]. intros [|f'] Hf; [lia|].
    rewrite JSONArray_step, Hmore1 by lia. cbn. by rewrite Hsk, Hc1. }
  destruct (c =? COMMA) eqn:Hc2; [|done].
  destruct (JSONArray fuel (skip_ws t)) as [[vs r']|] eqn:Ha; [|done]. cbn in H. simplify_eq.
  destruct (IHa _ _ _ Ha) as [Hlt2 Hmore2].
  pose proof (skip_ws_length t) as Hw2. split; [lia|].
  intros [|f'] Hf; [lia|].
  rewrite JSONArray_step, Hmore1 by lia. cbn. rewrite Hsk, Hc1, Hc2, Hmore2 by lia. done.
- rewrite JSONObject_step in H.
  destruct (scanstring s) as [[key s1]|] eqn:Hs; [|done]. cbn in H.
  pose proof (scanstring_length _ _ _ Hs) as Hlt0.
  pose proof (skip_ws_length s1) as Hw.
  destruct (skip_ws s1) as [|c t] eqn:Hsk; [done|]. cbn [length] in *.
  destruct (c =? COLON) eqn:Hc; [|done].
  destruct (scan_once fuel (skip_ws t)) as [[value s2]|] eqn:Hv; [|done]. cbn in H.
  destruct (IHv _ _ _ Hv) as [Hlt1 Hmore1].
  pose proof (skip_ws_length t) as Hw1.
  pose proof (skip_ws_length s2) as Hw2.
  destruct (skip_ws s2) as [|c2 t2] eqn:Hsk2; [done|]. cbn [length] in *.
  destruct (c2 =? RBRACE) eqn:Hc2.
  { simplify_eq. split; [lia|]. intros [|f'] Hf; [lia|].
    rewrite JSONObject_step, Hs. cbn. rewrite Hsk, Hc, Hmore1 by lia. cbn.
    by rewrite Hsk2, Hc2. }
  destruct (c2 =? COMMA) eqn:Hc3; [|done].
  pose proof (skip_ws_length t2) as Hw3.
  destruct (skip_ws t2) as [|c3 t3] eqn:Hsk3; [done|]. cbn [length] in *.
  destruct (c3 =? DQUOTE) eqn:Hc4; [|done].
  destruct (JSONObject fuel t3) as [[ps r']|] eqn:Ho; [|done]. cbn in H. simplify_eq.
  destruct (IHo _ _ _ Ho) as [Hlt2 Hmore2]. split; [lia|].
  intros [|f'] Hf; [lia|].
  rewrite JSONObject_step, Hs. cbn. rewrite Hsk, Hc, Hmore1 by lia. cbn.
  rewrite Hsk2, Hc2, Hc3, Hsk3, Hc4, Hmore2 by lia. done.
Qed.

(** [json_decode] gives the scanner enough fuel: whenever some fuel lets
  [scan_once] read a whole text, [json_decode] returns that value, so
  that [json_decode s = None] stands for an error of the decoder *)
Lemma json_decode_fuel fuel s v r :
scan_once fuel (skip_ws s) = Some (v, r) → skip_ws r = [] →
json_decode s = Some v.
Proof.
intros Hv Hr. destruct (scan_adequate fuel) as (Had & _ & _).
destruct (Had _ _ _ Hv) as [Hlt Hmore]. unfold json_decode.
pose proof (skip_ws_length s).
rewrite Hmore by lia. cbn. by rewrite Hr.
Qed.

(** and with more fuel than it has, the scanner would read nothing more *)
Lemma json_decode_None fuel s :
json_decode s = None →
match scan_once fuel (skip_ws s) with
| Some (_, r) => skip_ws r ≠ []
| None => True
end.
Proof.
intros Hnone. destruct (scan_once fuel (skip_ws s)) as [[v r]|] eqn:Hv; [|done].
intros Hr. by rewrite (json_decode_fuel _ _ _ _ Hv Hr) in Hnone.
Qed.

End Fuel.



(** ** Worlds and traces *)

Section WorldFacts.

Implicit Types (w : World) (evs : list event).

Lemma emits_nil w : emits [] w = w.
Proof. destruct w; unfold emits; simpl. by rewrite app_nil_r. Qed.

Lemma emits_emits evs1 evs2 w : emits evs2 (emits evs1 w) = emits (evs1 ++ evs2) w.
Proof. unfold emits; simpl. by rewrite app_assoc. Qed.

Lemma emit_emits ev evs w : emits evs (emit ev w) = emits (ev :: evs) w.
Proof. unfold emit. by rewrite emits_emits. Qed.

Lemma pop_fault_emits evs w : pop_fault (emits evs w) = emits evs (pop_fault w).
Proof. reflexivity. Qed.

Lemma set_cache_emits c evs w : set_cache c (emits evs w) = emits evs (set_cache c w).
Proof. reflexivity. Qed.

Lemma events_since_emits evs w : events_since w (emits evs w) = evs.
Proof. unfold events_since; simpl. by rewrite drop_app_length. Qed.

Lemma events_since_pop evs w : events_since w (emits evs (pop_fault w)) = evs.
Proof. unfold events_since; simpl. by rewrite drop_app_length. Qed.

Lemma events_since_set_cache c evs w :
  events_since w (set_cache c (emits evs (pop_fault w))) = evs.
Proof. unfold events_since; simpl. by rewrite drop_app_length. Qed.

End WorldFacts.

(** Run the straight-line steps of a handler and compare the worlds *)
Ltac run :=
  cbv [bind ret raise log print print_exn emit emits pop_fault set_cache set_db];
  simpl; rewrite <- ?app_assoc; simpl; try reflexivity.

Ltac wsimpl :=
  cbn [db cache clock faults trace emits emit set_cache set_db set_faults pop_fault fst snd].

(** ** The Redis client *)

Lemma round_trip_spec w :
  round_trip w =
  (match faults w with
   | Some e :: _ => Raise (RedisError e)
   | _ => Return tt
   end, pop_fault w).
Proof. unfold round_trip. by destruct (faults w) as [|[e|] f]. Qed.

Lemma redis_get_answered key w :
  answered w = true →
  redis_get key w = (Return (live_value key w), pop_fault (emit (RedisGet key) w)).
Proof.
  intros Ha. unfold redis_get, bind, log. rewrite round_trip_spec. simpl.
  unfold answered in Ha. by destruct (faults w) as [|[e|] f].
Qed.

Lemma redis_get_fault key w e f :
  faults w = Some e :: f →
  redis_get key w = (Raise (RedisError e), pop_fault (emit (RedisGet key) w)).
Proof.
  intros Hf. unfold redis_get, bind, log. rewrite round_trip_spec. simpl. by rewrite Hf.
Qed.

(** A read that succeeds is a read whose round trip is answered *)
Lemma redis_get_returns key w o w1 :
  redis_get key w = (Return o, w1) →
  answered w = true ∧ o = live_value key w ∧ w1 = pop_fault (emit (RedisGet key) w).
Proof.
  unfold redis_get, bind, log. rewrite round_trip_spec. simpl.
  unfold answered. destruct (faults w) as [|[e|] f]; simpl; intros H; by simplify_eq.
Qed.

Lemma redis_setex_answered key n value w :
  answered w = true →
  redis_setex key n value w =
  (Return tt,
   set_cache (<[key := (value, clock w + n)]> (cache w))
             (pop_fault (emit (RedisSetex key n value) w))).
Proof.
  intros Ha. unfold redis_setex, bind, log. rewrite round_trip_spec. simpl.
  unfold answered in Ha. by destruct (faults w) as [|[e|] f].
Qed.

Lemma redis_setex_fault key n value w e f :
  faults w = Some e :: f →
  redis_setex key n value w =
  (Raise (RedisError e), pop_fault (emit (RedisSetex key n value) w)).
Proof.
  intros Hf. unfold redis_setex, bind, log. rewrite round_trip_spec. simpl. by rewrite Hf.
Qed.

(** ** The two guarded blocks of [list_books] *)

Section ListBooks.

Import books.

Implicit Types (w : World).

Lemma check_redis_fault w e f :
  faults w = Some e :: f →
  check_redis w =
  (Return None,
   emits [RedisGet cache_key;
          Print "Redis not available, skipping cache" (Some (RedisError e))]
         (pop_fault w)).
Proof.
  intros Hf. unfold check_redis, try_except, bind at 1.
  rewrite (redis_get_fault _ _ _ _ Hf). run.
Qed.

Lemma check_redis_absent w :
  answered w = true → live_value cache_key w = None →
  check_redis w = (Return None, emits [RedisGet cache_key] (pop_fault w)).
Proof.
  intros Ha Hv. unfold check_redis, try_except, bind at 1.
  rewrite (redis_get_answered _ _ Ha), Hv. run.
Qed.

Lemma check_redis_falsy w s :
  answered w = true → live_value cache_key w = Some s → str_truthy s = false →
  check_redis w = (Return None, emits [RedisGet cache_key] (pop_fault w)).
Proof.
  intros Ha Hv Hs. unfold check_redis, try_except, bind at 1.
  rewrite (redis_get_answered _ _ Ha), Hv, Hs. run.
Qed.

Lemma check_redis_hit w s v :
  answered w = true → live_value cache_key w = Some s → str_truthy s = true →
  json_decode s = Some v →
  check_redis w =
  (Return (Some v), emits [RedisGet cache_key; Print "Cache Hit" None] (pop_fault w)).
Proof.
  intros Ha Hv Hs Hd. unfold check_redis, try_except, bind at 1.
  rewrite (redis_get_answered _ _ Ha), Hv, Hs.
  unfold json_loads. rewrite Hd. run.
Qed.

Lemma check_redis_undecodable w s :
  answered w = true → live_value cache_key w = Some s → str_truthy s = true →
  json_decode s = None →
  check_redis w =
  (Return None,
   emits [RedisGet cache_key; Print "Cache Hit" None;
          Print "Redis not available, skipping cache" (Some JSONDecodeError)]
         (pop_fault w)).
Proof.
  intros Ha Hv Hs Hd. unfold check_redis, try_except, bind at 1.
  rewrite (redis_get_answered _ _ Ha), Hv, Hs.
  unfold json_loads. rewrite Hd. run.
Qed.

(** The guarded read never raises, and touches neither the store nor
    the cache entries *)
Lemma check_redis_total w :
  ∃ o evs, check_redis w = (Return o, emits evs (pop_fault w)).
Proof.
  destruct (answered w) eqn:Ha.
  - destruct (live_value cache_key w) as [s|] eqn:Hv.
    + destruct (str_truthy s) eqn:Hs.
      * destruct (json_decode s) as [v|] eqn:Hd.
        -- eexists _, _. eapply check_redis_hit; eauto.
        -- eexists _, _. eapply check_redis_undecodable; eauto.
      * eexists _, _. eapply check_redis_falsy; eauto.
    + eexists _, _. by apply check_redis_absent.
  - unfold answered in Ha. destruct (faults w) as [|[e|] f] eqn:Hf; try done.
    eexists _, _. by eapply check_redis_fault.
Qed.

(** The outcome of the guarded read, in one equation *)
Lemma check_redis_outcome w :
  fst (check_redis w) =
  Return (if answered w
          then match live_value cache_key w with
               | Some s => if str_truthy s then json_decode s else None
               | None => None
               end
          else None).
Proof.
  destruct (answered w) eqn:Ha.
  - destruct (live_value cache_key w) as [s|] eqn:Hv.
    + destruct (str_truthy s) eqn:Hs.
      * destruct (json_decode s) as [v|] eqn:Hd.
        -- by erewrite check_redis_hit.
        -- by erewrite check_redis_undecodable.
      * by erewrite check_redis_falsy.
    + by rewrite check_redis_absent.
  - unfold answered in Ha. destruct (faults w) as [|[e|] f] eqn:Hf; try done.
    by erewrite check_redis_fault.
Qed.

Lemma cache_it_answered result w :
  answered w = true →
  cache_it result w =
  (Return tt,
   set_cache (<[cache_key := (json_dumps result, clock w + 300)]> (cache w))
             (emits [RedisSetex cache_key 300 (json_dumps result)] (pop_fault w))).
Proof.
  intros Ha. unfold cache_it, try_except. rewrite (redis_setex_answered _ _ _ _ Ha). run.
Qed.

Lemma cache_it_fault result w e f :
  faults w = Some e :: f →
  cache_it result w =
  (Return tt,
   emits [RedisSetex cache_key 300 (json_dumps result);
          Print "Redis not available, couldn't set cache" (Some (RedisError e))]
         (pop_fault w)).
Proof.
  intros Hf. unfold cache_it, try_except. rewrite (redis_setex_fault _ _ _ _ _ _ Hf). run.
Qed.

(** The guarded write never raises and leaves the store alone *)
Lemma cache_it_total result w :
  ∃ w', cache_it result w = (Return tt, w') ∧ db w' = db w ∧ clock w' = clock w.
Proof.
  destruct (answered w) eqn:Ha.
  - eexists. split; [by apply cache_it_answered|]. done.
  - unfold answered in Ha. destruct (faults w) as [|[e|] f] eqn:Hf; try done.
    eexists. split; [by eapply cache_it_fault|done].
Qed.

(** The comprehension of line 31 *)
Lemma for_each_dump (l : list models.Book.t) w :
  for_each (fun book => b <- schemas.BookOut.model_validate book;;
                        ret (schemas.BookOut.model_dump b)) l w =
  (Return (map (fun book => schemas.BookOut.model_dump (book_out (db w) book)) l),
   emits (map (fun book => SelectReviews (models.Book.id book)) l) w).
Proof.
  revert w. induction l as [|book l IH]; intros w; simpl.
  - unfold ret. by rewrite emits_nil.
  - unfold bind at 1. unfold bind at 1. unfold schemas.BookOut.model_validate at 1.
    unfold bind at 1, log at 1. simpl.
    unfold bind at 1. rewrite IH. unfold ret; simpl.
    rewrite emit_emits. reflexivity.
Qed.

Lemma dump_books_collection d :
  dump_books (collection d) =
  JList (map (fun book => schemas.BookOut.model_dump (book_out d book)) (store.select_books d)).
Proof. unfold dump_books, collection. by rewrite map_map. Qed.

Lemma list_books_hit_run w v w1 :
  check_redis w = (Return (Some v), w1) → list_books w = (Return v, w1).
Proof. intros H. unfold list_books, bind at 1. by rewrite H. Qed.

(** The path through the store, up to the guarded write *)
Lemma list_books_miss_run w w1 :
  check_redis w = (Return None, w1) →
  list_books w =
  (Return (dump_books (collection (db w1))),
   snd (cache_it (dump_books (collection (db w1)))
          (emits (Print "Cache Miss - Fetching from DB" None :: SelectBooks ::
                  map (fun book => SelectReviews (models.Book.id book))
                      (store.select_books (db w1))) w1))).
Proof.
  intros H. unfold list_books, bind at 1. rewrite H.
  unfold bind at 1, print, log. unfold bind at 1, crud.get_books.
  unfold bind at 1, log. unfold bind at 1. rewrite for_each_dump. simpl.
  rewrite !emit_emits. rewrite dump_books_collection.
  unfold bind. simpl.
  match goal with |- context [cache_it ?r ?w0] =>
    destruct (cache_it_total r w0) as (w2 & -> & _) end.
  reflexivity.
Qed.

Lemma check_redis_frame w o w1 :
  check_redis w = (Return o, w1) →
  db w1 = db w ∧ cache w1 = cache w ∧ clock w1 = clock w ∧ faults w1 = tail (faults w).
Proof.
  destruct (check_redis_total w) as (o' & evs & ->). intros H. by simplify_eq.
Qed.

(** What [list_books] does when the guarded read yields nothing *)
Lemma list_books_miss w w1 :
  check_redis w = (Return None, w1) →
  ∃ w2,
    list_books w = (Return (dump_books (collection (db w))), w2) ∧
    db w2 = db w ∧ clock w2 = clock w ∧
    SelectBooks ∈ events_since w w2 ∧
    RedisSetex cache_key 300 (snapshot (collection (db w))) ∈ events_since w w2 ∧
    (∀ ev, ev ∈ events_since w w1 → ev ∈ events_since w w2) ∧
    cache w2 =
      (if answered w1
       then <[cache_key := (snapshot (collection (db w)), clock w + 300)]> (cache w)
       else cache w).
Proof.
  intros H. rewrite (list_books_miss_run _ _ H).
  destruct (check_redis_total w) as (o' & evs & H').
  rewrite H' in H. simplify_eq. wsimpl.
  set (evs' := _ :: _ :: _).
  rewrite emits_emits.
  assert (Hin : ∀ evs'' x, x ∈ evs ++ evs' ++ evs'' → x ∈ events_since w
            (emits evs'' (pop_fault (emits (evs ++ evs') (pop_fault w))))).
  { intros evs'' x Hx. unfold events_since. wsimpl.
    by rewrite <- !app_assoc, drop_app_length. }
  assert (Hpre : events_since w (emits evs (pop_fault w)) = evs).
  { unfold events_since. wsimpl. by rewrite drop_app_length. }
  rewrite Hpre.
  change (answered (emits evs (pop_fault w))) with (answered (pop_fault w)).
  destruct (answered (pop_fault w)) eqn:Ha.
  - rewrite cache_it_answered by done. eexists. split; [reflexivity|].
    wsimpl. split_and!; try done.
    + apply (Hin [_]). subst evs'. set_solver.
    + apply (Hin [_]). set_solver.
    + intros ev Hev. apply (Hin [_]). set_solver.
  - assert (∃ e f, faults (pop_fault w) = Some e :: f) as (e & f & Hf).
    { unfold answered in Ha. destruct (faults (pop_fault w)) as [|[e|] f]; try done.
      by eexists _, _. }
    erewrite cache_it_fault by exact Hf. eexists. split; [reflexivity|].
    wsimpl. split_and!; try done.
    + apply (Hin [_; _]). subst evs'. set_solver.
    + apply (Hin [_; _]). set_solver.
    + intros ev Hev. apply (Hin [_; _]). set_solver.
Qed.

End ListBooks.

(** ** The store *)

Section StoreFacts.

Implicit Types (d : store.Database).

Lemma next_id_above (ids : list Z) i : i ∈ ids → i < store.next_id ids.
Proof.
  unfold store.next_id. induction ids as [|j ids IH]; simpl.
  - by intros ?%elem_of_nil.
  - intros [->|Hi]%elem_of_cons; [lia|]. specialize (IH Hi). lia.
Qed.

Lemma next_id_fresh (ids : list Z) : store.next_id ids ∉ ids.
Proof. intros H%next_id_above. lia. Qed.

Lemma book_exists_true d i :
  store.book_exists d i = true ↔ i ∈ map models.Book.id (store.books d).
Proof. unfold store.book_exists. by rewrite bool_decide_eq_true. Qed.

Lemma book_exists_insert_book d title author i :
  store.book_exists d i = true →
  store.book_exists (snd (store.insert_book title author d)) i = true.
Proof.
  rewrite !book_exists_true. simpl. rewrite map_app, elem_of_app. by left.
Qed.

Lemma select_reviews_spec d i r :
  r ∈ store.select_reviews d i ↔
  r ∈ store.reviews d ∧ models.Review.book_id r = Some i.
Proof. unfold store.select_reviews. rewrite list_elem_of_filter. tauto. Qed.

Lemma integrity_empty : referential_integrity store.empty.
Proof. constructor. Qed.

Lemma integrity_insert_book d title author :
  referential_integrity d →
  referential_integrity (snd (store.insert_book title author d)).
Proof.
  unfold referential_integrity. simpl. intros Hd. eapply Forall_impl; [exact Hd|].
  intros r (i & Hr & Hi). exists i. split; [done|].
  by apply (book_exists_insert_book d title author).
Qed.

Lemma integrity_insert_review d content i row d' :
  referential_integrity d →
  store.insert_review content i d = Some (row, d') →
  referential_integrity d'.
Proof.
  unfold referential_integrity, store.insert_review.
  destruct (store.book_exists d i) eqn:Hi; [|done].
  intros Hd [= <- <-]. simpl. apply Forall_app. split.
  - eapply Forall_impl; [exact Hd|]. intros r (j & Hr & Hj). by exists j.
  - constructor; [|constructor]. by exists i.
Qed.

(** No review references a book that the store does not hold *)
Lemma select_reviews_unknown d i :
  referential_integrity d → store.book_exists d i = false →
  store.select_reviews d i = [].
Proof.
  intros Hd Hi. unfold store.select_reviews, referential_integrity in *.
  induction Hd as [|r l (j & Hr & Hj) _ IH]; [done|].
  rewrite filter_cons_False; [done|]. rewrite Hr. intros [= ->]. congruence.
Qed.

End StoreFacts.

(** ** Snapshots of a collection *)

Section Snapshots.

Lemma wf_review_dump r :
  valid_review_out r → wf_json (schemas.ReviewOut.model_dump r).
Proof.
  intros Hr. unfold schemas.ReviewOut.model_dump. constructor.
  - by apply (bool_decide_unpack _).
  - repeat constructor; cbn [fst snd]; try done; unfold valid_text; cbn;
      repeat constructor.
Qed.

Lemma wf_book_dump b :
  valid_book_out b → wf_json (schemas.BookOut.model_dump b).
Proof.
  intros (Ht & Ha & Hr). unfold schemas.BookOut.model_dump. constructor.
  - by apply (bool_decide_unpack _).
  - repeat (apply Forall_cons; split; [split|]); cbn [fst snd];
      try (unfold valid_text; cbn; by repeat constructor);
      try (by constructor).
    constructor. apply Forall_map. eapply Forall_impl; [exact Hr|].
    intros r. apply wf_review_dump.
Qed.

Lemma wf_dump_books bs : Forall valid_book_out bs → wf_json (dump_books bs).
Proof.
  intros Hbs. unfold dump_books. constructor. apply Forall_map.
  eapply Forall_impl; [exact Hbs|]. intros b. apply wf_book_dump.
Qed.

(** A snapshot deserializes to the value it was made from *)
Lemma snapshot_decode bs :
  Forall valid_book_out bs → json_decode (snapshot bs) = Some (dump_books bs).
Proof. intros Hbs. apply json_decode_dumps. by apply wf_dump_books. Qed.

Lemma snapshot_truthy bs : str_truthy (snapshot bs) = true.
Proof. reflexivity. Qed.

Lemma review_dump_inj r r' :
  schemas.ReviewOut.model_dump r = schemas.ReviewOut.model_dump r' → r = r'.
Proof. destruct r, r'. unfold schemas.ReviewOut.model_dump. cbn. by intros [= -> ->]. Qed.

Lemma map_inj_eq {A B} (f : A → B) (l l' : list A) :
  (∀ x y, f x = f y → x = y) → map f l = map f l' → l = l'.
Proof.
  intros Hf. revert l'. induction l as [|x l IH]; intros [|y l']; cbn; try done.
  intros [= Hxy Hl]. f_equal; auto.
Qed.

Lemma book_dump_inj b b' :
  schemas.BookOut.model_dump b = schemas.BookOut.model_dump b' → b = b'.
Proof.
  destruct b, b'. unfold schemas.BookOut.model_dump. cbn.
  intros [= -> -> -> Hr]. f_equal. eapply map_inj_eq; [|exact Hr]. apply review_dump_inj.
Qed.

Lemma dump_books_inj bs bs' : dump_books bs = dump_books bs' → bs = bs'.
Proof.
  unfold dump_books. intros [= H]. eapply map_inj_eq; [|exact H]. apply book_dump_inj.
Qed.

(** The collection of a well-formed store is made of Unicode text *)
Lemma valid_collection d : valid_db d → Forall valid_book_out (collection d).
Proof.
  intros [Hb Hr]. unfold collection, store.select_books. apply Forall_map.
  eapply Forall_impl; [exact Hb|]. intros b [Ht Ha]. unfold valid_book_out, book_out. cbn.
  split_and!; [done..|]. apply Forall_map. unfold store.select_reviews.
  apply Forall_forall. intros r [_ Hin]%list_elem_of_filter.
  rewrite Forall_forall in Hr. by apply Hr.
Qed.

End Snapshots.

(** ** The claims about [GET /books] *)

Lemma redis_get_raises key w e w1 :
  redis_get key w = (Raise e, w1) →
  ∃ re f, e = RedisError re ∧ faults w = Some re :: f.
Proof.
  unfold redis_get, bind, log. rewrite round_trip_spec. cbn [faults emit emits].
  destruct (faults w) as [|[re|] f]; intros H; simplify_eq. by eexists _, _.
Qed.

(** The ways in which the guarded read yields nothing: the round trip
    fails, the key is absent or has expired, the value is empty, or the
    value is not JSON *)
Lemma miss_path_cases w :
  fst (books.check_redis w) = Return None ↔
  answered w = false ∨
  live_value books.cache_key w = None ∨
  live_value books.cache_key w = Some [] ∨
  (∃ s, live_value books.cache_key w = Some s ∧ json_decode s = None).
Proof.
  rewrite check_redis_outcome. destruct (answered w); [|by split; [left|]].
  destruct (live_value books.cache_key w) as [[|c s]|]; cbn [str_truthy].
  - split; [by right; right; left|done].
  - destruct (json_decode (c :: s)) as [v|] eqn:Hd.
    + split; [done|]. intros [?|[?|[?|(s' & [= <-] & ?)]]]; congruence.
    + split; [|done]. intros _. right; right; right. by exists (c :: s).
  - split; [by right; left|done].
Qed.

Lemma check_redis_surj w : books.check_redis w = (fst (books.check_redis w), snd (books.check_redis w)).
Proof. by destruct (books.check_redis w). Qed.

(** C1. Whenever the read of the key [all_books] succeeds and yields a
    non-empty value that deserializes to [v], [list_books] returns [v];
    all it does is the read and the print of the hit: the books are not
    selected from the store, and the store is left as it was. *)
Theorem list_books_cache_hit (w w1 : World) (s : str) (v : json) :
  redis_get books.cache_key w = (Return (Some s), w1) →
  str_truthy s = true →
  json_decode s = Some v →
  ∃ w', books.list_books w = (Return v, w') ∧
        events_since w w' = [RedisGet books.cache_key; Print "Cache Hit" None] ∧
        (SelectBooks ∉ events_since w w') ∧
        db w' = db w.
Proof.
  intros (Ha & Hv & _)%redis_get_returns Hs Hd. symmetry in Hv.
  eexists. split; [apply list_books_hit_run; by eapply check_redis_hit|].
  rewrite events_since_pop. split_and!; [done| |done].
  intros Hin. repeat (apply elem_of_cons in Hin as [Hin|Hin]; [done|]).
  by apply elem_of_nil in Hin.
Qed.

Lemma list_books_cache_hit_witness :
  ∃ w', books.list_books w_warm =
          (Return (dump_books (collection (db w_cold))), w') ∧
        events_since w_warm w' = [RedisGet books.cache_key; Print "Cache Hit" None] ∧
        (SelectBooks ∉ events_since w_warm w') ∧
        db w' = db w_warm.
Proof.
  apply (list_books_cache_hit w_warm (snd (redis_get books.cache_key w_warm))
           (snapshot (collection (db w_cold)))).
  - vm_compute. reflexivity.
  - reflexivity.
  - vm_compute. reflexivity.
Defined.

(** C2. Whenever the read of the key [all_books] raises, [list_books]
    does not raise: the guarded read yields nothing, as on a miss, the
    error is printed, the books are selected from the store, and the
    collection of the store is returned, as it is in every world with
    the same store in which the guarded read yields nothing. *)
Theorem list_books_cache_read_error (w w1 : World) (e : exn) :
  redis_get books.cache_key w = (Raise e, w1) →
  ∃ w', books.list_books w = (Return (dump_books (collection (db w))), w') ∧
        fst (books.check_redis w) = Return None ∧
        Print "Redis not available, skipping cache" (Some e) ∈ events_since w w' ∧
        SelectBooks ∈ events_since w w' ∧
        db w' = db w ∧
        ∀ wm, db wm = db w → fst (books.check_redis wm) = Return None →
              fst (books.list_books wm) = fst (books.list_books w).
Proof.
  intros (re & f & -> & Hf)%redis_get_raises.
  pose proof (check_redis_fault w re f Hf) as Hc.
  destruct (list_books_miss w _ Hc) as (w' & Hl & Hdb & _ & Hsel & _ & Hpre & _).
  exists w'. split_and!; try done.
  - by rewrite Hc.
  - apply Hpre. rewrite events_since_pop. set_solver.
  - intros wm Hwm Hm. rewrite (check_redis_surj wm) in Hm. cbn [fst] in Hm.
    pose proof (check_redis_surj wm) as Hcm. rewrite Hm in Hcm.
    destruct (list_books_miss wm _ Hcm) as (wm' & -> & _). rewrite Hl. cbn. by rewrite Hwm.
Qed.

Lemma list_books_cache_read_error_witness :
  ∃ w', books.list_books w_down =
          (Return (dump_books (collection (db w_down))), w') ∧
        fst (books.check_redis w_down) = Return None ∧
        Print "Redis not available, skipping cache" (Some (RedisError ConnectionError))
          ∈ events_since w_down w' ∧
        SelectBooks ∈ events_since w_down w' ∧
        db w' = db w_down ∧
        ∀ wm, db wm = db w_down → fst (books.check_redis wm) = Return None →
              fst (books.list_books wm) = fst (books.list_books w_down).
Proof.
  apply (list_books_cache_read_error w_down (snd (redis_get books.cache_key w_down))).
  vm_compute. reflexivity.
Defined.

(** C3. Whenever [list_books] takes the path through the store (the
    guarded read yields nothing) and the round trip of the write is
    answered, the key [all_books] afterwards holds the serialization of
    the value returned, which is the collection of the store, set by
    [setex] with 300 seconds, so that it expires 300 seconds after the
    request: it is served for the 300 seconds that follow and no
    longer.  The text under the key is a snapshot of the value returned:
    it is not empty and, the store holding Unicode text, [json.loads]
    reads the value returned back from it, so that a [GET /books] whose
    read is answered within these 300 seconds returns that value again. *)
Theorem list_books_miss_populates (w w1 w' : World) (v : json) :
  books.check_redis w = (Return None, w1) →
  answered w1 = true →
  books.list_books w = (Return v, w') →
  v = dump_books (collection (db w)) ∧
  cache w' !! books.cache_key = Some (json_dumps v, clock w + 300) ∧
  RedisSetex books.cache_key 300 (json_dumps v) ∈ events_since w w' ∧
  (∀ t, 0 <= t →
        live_value books.cache_key (sleep t w') =
        if t <? 300 then Some (json_dumps v) else None) ∧
  str_truthy (json_dumps v) = true ∧
  (valid_db (db w) →
   json_decode (json_dumps v) = Some v ∧
   ∀ t, 0 <= t < 300 → answered (sleep t w') = true →
        fst (books.list_books (sleep t w')) = Return v).
Proof.
  intros Hc Ha Hl.
  destruct (list_books_miss w w1 Hc) as (w2 & Hl2 & _ & Hclk & _ & Hset & _ & Hcache).
  rewrite Hl2 in Hl. simplify_eq. rewrite Ha in Hcache.
  assert (Hlive : ∀ t, 0 <= t →
            live_value books.cache_key (sleep t w') =
            if t <? 300 then Some (json_dumps (dump_books (collection (db w)))) else None).
  { intros t Ht. unfold live_value, sleep. cbn [cache clock set_clock].
    rewrite Hcache, lookup_insert_eq, Hclk.
    destruct (Z.ltb_spec t 300), (Z.ltb_spec (clock w + t) (clock w + 300)); done || lia. }
  split_and!; try done.
  - by rewrite Hcache, lookup_insert_eq.
  - intros Hdb.
    assert (Hd : json_decode (json_dumps (dump_books (collection (db w)))) =
                 Some (dump_books (collection (db w)))).
    { apply snapshot_decode. by apply valid_collection. }
    split; [done|]. intros t [Ht0 Ht] Hat.
    erewrite list_books_hit_run; [done|].
    apply (check_redis_hit (sleep t w') (json_dumps (dump_books (collection (db w)))));
      [done| |done|done].
    rewrite Hlive by done. by rewrite (proj2 (Z.ltb_lt t 300)).
Qed.

Lemma list_books_miss_populates_witness :
  cache w_warm !! books.cache_key =
    Some (json_dumps (dump_books (collection (db w_cold))), clock w_cold + 300) ∧
  RedisSetex books.cache_key 300 (json_dumps (dump_books (collection (db w_cold))))
    ∈ events_since w_cold w_warm ∧
  (∀ t, 0 <= t →
        live_value books.cache_key (sleep t w_warm) =
        if t <? 300 then Some (json_dumps (dump_books (collection (db w_cold)))) else None) ∧
  str_truthy (json_dumps (dump_books (collection (db w_cold)))) = true ∧
  json_decode (json_dumps (dump_books (collection (db w_cold)))) =
    Some (dump_books (collection (db w_cold))) ∧
  ∀ t, 0 <= t < 300 → answered (sleep t w_warm) = true →
       fst (books.list_books (sleep t w_warm)) = Return (dump_books (collection (db w_cold))).
Proof.
  destruct (list_books_miss_populates w_cold (snd (books.check_redis w_cold)) w_warm
              (dump_books (collection (db w_cold))))
    as (_ & Hentry & Hset & Hlive & Htext & Hback).
  - vm_compute. reflexivity.
  - reflexivity.
  - vm_compute. reflexivity.
  - destruct Hback as [Hdecode Hnext].
    + split; repeat constructor.
    + split_and!; assumption.
Defined.

(** C4. On the path through the store, [list_books] returns the
    collection of the store whatever happens to the write to the cache:
    two executions that differ only in the outcome [f1], [f2] of the
    round trip of the write (answered, or failed with any error) return
    the same value, and neither raises. *)
Theorem list_books_write_back_swallowed
    (w : World) (r f1 f2 : option redis_error) (rest : list (option redis_error)) :
  fst (books.check_redis (set_faults (r :: f1 :: rest) w)) = Return None →
  fst (books.list_books (set_faults (r :: f1 :: rest) w)) =
    Return (dump_books (collection (db w))) ∧
  fst (books.list_books (set_faults (r :: f2 :: rest) w)) =
    Return (dump_books (collection (db w))).
Proof.
  intros Hm.
  assert (Hm2 : fst (books.check_redis (set_faults (r :: f2 :: rest) w)) = Return None).
  { rewrite check_redis_outcome in *. exact Hm. }
  split.
  - pose proof (check_redis_surj (set_faults (r :: f1 :: rest) w)) as Hc. rewrite Hm in Hc.
    by destruct (list_books_miss _ _ Hc) as (w2 & -> & _).
  - pose proof (check_redis_surj (set_faults (r :: f2 :: rest) w)) as Hc. rewrite Hm2 in Hc.
    by destruct (list_books_miss _ _ Hc) as (w2 & -> & _).
Qed.

Lemma list_books_write_back_swallowed_witness :
  fst (books.list_books (set_faults [None; Some TimeoutError] w_cold)) =
    Return (dump_books (collection (db w_cold))) ∧
  fst (books.list_books (set_faults [None; None] w_cold)) =
    Return (dump_books (collection (db w_cold))).
Proof.
  apply (list_books_write_back_swallowed w_cold None (Some TimeoutError) None []).
  vm_compute. reflexivity.
Defined.

(** C8. Whenever the read of the key [all_books] succeeds and yields a
    non-empty value that does not deserialize, [list_books] does not
    raise: the handler of the guarded read, the one that handles the
    errors of the cache backend, prints the [JSONDecodeError], the books
    are selected from the store, and the collection of the store is
    returned. *)
Theorem list_books_undecodable (w w1 : World) (s : str) :
  redis_get books.cache_key w = (Return (Some s), w1) →
  str_truthy s = true →
  json_decode s = None →
  ∃ w', books.list_books w = (Return (dump_books (collection (db w))), w') ∧
        Print "Redis not available, skipping cache" (Some JSONDecodeError)
          ∈ events_since w w' ∧
        SelectBooks ∈ events_since w w' ∧
        db w' = db w.
Proof.
  intros (Ha & Hv & _)%redis_get_returns Hs Hd. symmetry in Hv.
  pose proof (check_redis_undecodable w s Ha Hv Hs Hd) as Hc.
  destruct (list_books_miss w _ Hc) as (w' & Hl & Hdb & _ & Hsel & _ & Hpre & _).
  exists w'. split_and!; try done.
  apply Hpre. rewrite events_since_pop. set_solver.
Qed.

Lemma list_books_undecodable_witness :
  ∃ w', books.list_books w_garbled =
          (Return (dump_books (collection (db w_garbled))), w') ∧
        Print "Redis not available, skipping cache" (Some JSONDecodeError)
          ∈ events_since w_garbled w' ∧
        SelectBooks ∈ events_since w_garbled w' ∧
        db w' = db w_garbled.
Proof.
  apply (list_books_undecodable w_garbled (snd (redis_get books.cache_key w_garbled))
           (py "<html>")).
  - vm_compute. reflexivity.
  - reflexivity.
  - vm_compute. reflexivity.
Defined.

(** C9. Whenever the read of the key [all_books] succeeds and yields the
    empty string, [list_books] takes the path through the store: the
    books are selected from the store and the collection of the store
    is returned, not the cached value. *)
Theorem list_books_empty_value (w w1 : World) (s : str) :
  redis_get books.cache_key w = (Return (Some s), w1) →
  str_truthy s = false →
  ∃ w', books.list_books w = (Return (dump_books (collection (db w))), w') ∧
        fst (books.check_redis w) = Return None ∧
        SelectBooks ∈ events_since w w' ∧
        db w' = db w.
Proof.
  intros (Ha & Hv & _)%redis_get_returns Hs. symmetry in Hv.
  pose proof (check_redis_falsy w s Ha Hv Hs) as Hc.
  destruct (list_books_miss w _ Hc) as (w' & Hl & Hdb & _ & Hsel & _).
  exists w'. split_and!; try done. by rewrite Hc.
Qed.

Lemma list_books_empty_value_witness :
  ∃ w', books.list_books w_blank =
          (Return (dump_books (collection (db w_blank))), w') ∧
        fst (books.check_redis w_blank) = Return None ∧
        SelectBooks ∈ events_since w_blank w' ∧
        db w' = db w_blank.
Proof.
  apply (list_books_empty_value w_blank (snd (redis_get books.cache_key w_blank)) []).
  - vm_compute. reflexivity.
  - reflexivity.
Defined.

(** ** The claims about the writes and about the reviews *)

Lemma collection_ids d :
  map schemas.BookOut.id (collection d) = map models.Book.id (store.books d).
Proof. unfold collection, store.select_books. rewrite map_map. by apply map_ext. Qed.

Lemma add_book_run book w :
  books.add_book book w =
  (Return (models.Book.mk (store.next_id (map models.Book.id (store.books (db w))))
             (schemas.BookCreate.title book) (schemas.BookCreate.author book)),
   set_db (snd (store.insert_book (schemas.BookCreate.title book)
                  (schemas.BookCreate.author book) (db w)))
          (emit (InsertBook (schemas.BookCreate.title book)
                   (schemas.BookCreate.author book)) w)).
Proof. reflexivity. Qed.

Lemma add_review_frame book_id review w :
  cache (snd (books.add_review book_id review w)) = cache w ∧
  clock (snd (books.add_review book_id review w)) = clock w ∧
  faults (snd (books.add_review book_id review w)) = faults w ∧
  events_since w (snd (books.add_review book_id review w)) =
    [InsertReview (schemas.ReviewCreate.content review) book_id].
Proof.
  unfold books.add_review, crud.add_review, bind, log. cbn [db emit emits].
  destruct (store.insert_review _ _ _) as [[row d]|]; cbn [snd];
    split_and!; try done; apply (events_since_emits [_]).
Qed.

(** C5. Creating a book or a review makes no round trip to the cache
    backend and leaves every cache entry as it was: all it does is the
    insertion into the store.  So when the key [all_books] holds the
    snapshot of a collection of books of the store, the [GET /books]
    that follows the creation of a book is a hit that returns this
    collection, in which the book just created, though in the store, is
    absent. *)
Theorem writes_leave_cache_stale (w : World) :
  (∀ book,
     ∃ created w1,
       books.add_book book w = (Return created, w1) ∧
       cache w1 = cache w ∧ clock w1 = clock w ∧ faults w1 = faults w ∧
       events_since w w1 =
         [InsertBook (schemas.BookCreate.title book) (schemas.BookCreate.author book)] ∧
       created ∈ store.books (db w1)) ∧
  (∀ book_id review,
     cache (snd (books.add_review book_id review w)) = cache w ∧
     clock (snd (books.add_review book_id review w)) = clock w ∧
     faults (snd (books.add_review book_id review w)) = faults w ∧
     events_since w (snd (books.add_review book_id review w)) =
       [InsertReview (schemas.ReviewCreate.content review) book_id]) ∧
  (∀ book bs,
     answered w = true →
     live_value books.cache_key w = Some (snapshot bs) →
     Forall valid_book_out bs →
     map schemas.BookOut.id bs ⊆ map models.Book.id (store.books (db w)) →
     ∃ created w1,
       books.add_book book w = (Return created, w1) ∧
       created ∈ store.books (db w1) ∧
       fst (books.list_books w1) = Return (dump_books bs) ∧
       fst (books.list_books w1) = fst (books.list_books w) ∧
       models.Book.id created ∉ map schemas.BookOut.id bs).
Proof.
  split_and!.
  - intros book. eexists _, _. split; [apply add_book_run|].
    split_and!; try done.
    + apply (events_since_emits [_]).
    + cbn. apply elem_of_app. right. by left.
  - intros book_id review. apply add_review_frame.
  - intros book bs Ha Hv Hbs Hsub.
    eexists _, _. split; [apply add_book_run|].
    assert (Hhit : ∀ w0, answered w0 = true →
              live_value books.cache_key w0 = Some (snapshot bs) →
              fst (books.list_books w0) = Return (dump_books bs)).
    { intros w0 Ha0 Hv0. erewrite list_books_hit_run; [done|].
      apply (check_redis_hit w0 (snapshot bs)); [done..|by apply snapshot_decode]. }
    split_and!.
    + cbn. apply elem_of_app. right. by left.
    + by apply Hhit.
    + by rewrite !Hhit.
    + cbn [models.Book.id]. intros Hin. apply Hsub in Hin.
      by apply next_id_fresh in Hin.
Qed.

Lemma valid_db_cold : valid_db (db w_cold).
Proof. split; repeat constructor. Qed.

Lemma writes_leave_cache_stale_witness :
  ∃ created w1,
    books.add_book habits w_warm = (Return created, w1) ∧
    created ∈ store.books (db w1) ∧
    fst (books.list_books w1) = Return (dump_books (collection (db w_cold))) ∧
    fst (books.list_books w1) = fst (books.list_books w_warm) ∧
    models.Book.id created ∉ map schemas.BookOut.id (collection (db w_cold)).
Proof.
  destruct (writes_leave_cache_stale w_warm) as (_ & _ & Hstale).
  apply Hstale.
  - reflexivity.
  - vm_compute. reflexivity.
  - apply valid_collection, valid_db_cold.
  - rewrite collection_ids. intros i Hi. vm_compute in Hi |- *. exact Hi.
Defined.

(** C6. Adding a review for a [book_id] that references no book of the
    store raises the constraint violation of the store out of the
    handler, which has no [try] around it; nothing is inserted. *)
Theorem add_review_unknown_book (w : World) (book_id : Z) (review : schemas.ReviewCreate.t) :
  store.book_exists (db w) book_id = false →
  ∃ w', books.add_review book_id review w = (Raise IntegrityError, w') ∧
        db w' = db w ∧ cache w' = cache w.
Proof.
  intros Hb. unfold books.add_review, crud.add_review, bind, log, store.insert_review.
  cbn [db emit emits]. rewrite Hb. by eexists.
Qed.

Lemma add_review_unknown_book_witness :
  ∃ w', books.add_review 7 (schemas.ReviewCreate.mk (py "Lost")) w_cold =
          (Raise IntegrityError, w') ∧
        db w' = db w_cold ∧ cache w' = cache w_cold.
Proof. apply add_review_unknown_book. reflexivity. Defined.

(** C7. Serializing a collection of books with their reviews, made of
    Unicode text, and deserializing the result gives back the value that
    was serialized, and two collections with that value have the same
    records: the same [title], [author] and [id] in each book, the same
    [content] and [id] in each of its reviews. *)
Theorem snapshot_round_trip (bs : list schemas.BookOut.t) :
  Forall valid_book_out bs →
  json_decode (json_dumps (dump_books bs)) = Some (dump_books bs) ∧
  ∀ bs', json_decode (json_dumps (dump_books bs)) = Some (dump_books bs') → bs' = bs.
Proof.
  intros Hbs. pose proof (snapshot_decode bs Hbs) as Hd. unfold snapshot in Hd.
  split; [done|]. intros bs' Hbs'. rewrite Hd in Hbs'.
  apply dump_books_inj. congruence.
Qed.

Lemma snapshot_round_trip_witness :
  json_decode (json_dumps (dump_books sample_books)) = Some (dump_books sample_books) ∧
  ∀ bs', json_decode (json_dumps (dump_books sample_books)) = Some (dump_books bs') →
         bs' = sample_books.
Proof.
  apply snapshot_round_trip. unfold sample_books, valid_book_out, valid_review_out, valid_text.
  repeat constructor.
Defined.

(** Two adjacent surrogates in a [str] are read back as one character:
    the text must be Unicode text for the round trip *)
Example surrogates_merge :
  json_decode (json_dumps (JStr [55357; 56832])) = Some (JStr [128512]).
Proof. reflexivity. Qed.

(** C10. For every [book_id], [get_reviews] does not raise and returns
    the reviews of the store whose [book_id] is the argument, all of
    them and no other; in a store with referential integrity, a
    [book_id] that references no book yields the empty list. *)
Theorem get_reviews_total (w : World) (book_id : Z) :
  ∃ w', books.get_reviews book_id w =
          (Return (store.select_reviews (db w) book_id), w') ∧
        db w' = db w ∧
        (∀ r, r ∈ store.select_reviews (db w) book_id ↔
              r ∈ store.reviews (db w) ∧ models.Review.book_id r = Some book_id) ∧
        (referential_integrity (db w) → store.book_exists (db w) book_id = false →
         store.select_reviews (db w) book_id = []).
Proof.
  eexists. split; [reflexivity|]. split_and!; [done| |].
  - apply select_reviews_spec.
  - apply select_reviews_unknown.
Qed.

Lemma integrity_cold : referential_integrity (db w_cold).
Proof. repeat constructor. by exists 1. Qed.

Lemma get_reviews_total_witness :
  fst (books.get_reviews 7 w_cold) = Return [] ∧
  fst (books.get_reviews 1 w_cold) =
    Return [models.Review.mk 1 (py "A fable") (Some 1)].
Proof.
  split.
  - destruct (get_reviews_total w_cold 7) as (w' & -> & _ & _ & Hempty).
    cbn [fst]. by rewrite (Hempty integrity_cold eq_refl).
  - by destruct (get_reviews_total w_cold 1) as (w' & -> & _).
Defined.

(** Every handler keeps the referential integrity of the store *)
Lemma handlers_keep_integrity (w : World) :
  referential_integrity (db w) →
  (∀ book, referential_integrity (db (snd (books.add_book book w)))) ∧
  (∀ book_id review, referential_integrity (db (snd (books.add_review book_id review w)))) ∧
  (∀ book_id, referential_integrity (db (snd (books.get_reviews book_id w)))) ∧
  referential_integrity (db (snd (books.list_books w))).
Proof.
  intros Hw. split_and!.
  - intros book. rewrite add_book_run. cbn [snd db set_db]. by apply integrity_insert_book.
  - intros book_id review. unfold books.add_review, crud.add_review, bind, log.
    cbn [db emit emits].
    destruct (store.insert_review _ _ _) as [[row d]|] eqn:Hi; cbn [snd db set_db]; [|done].
    by eapply integrity_insert_review.
  - done.
  - destruct (check_redis_total w) as ([v|] & evs & Hc).
    + rewrite (list_books_hit_run _ _ _ Hc). done.
    + destruct (list_books_miss _ _ Hc) as (w2 & -> & Hdb & _). cbn [snd]. by rewrite Hdb.
Qed.

(** * More about the handlers *)

(** ** [GET /books] on every path *)

Section ListBooksPaths.

Import books.

Implicit Types (w : World).

(** The outcome of the guarded read, when it is a hit *)
Lemma check_redis_Some w v w1 :
check_redis w = (Return (Some v), w1) →
∃ s, answered w = true ∧ live_value cache_key w = Some s ∧ str_truthy s = true ∧
     json_decode s = Some v ∧
     w1 = emits [RedisGet cache_key; Print "Cache Hit" None] (pop_fault w).
Proof.
intros H. pose proof (check_redis_outcome w) as Ho. rewrite H in Ho. cbn [fst] in Ho.
destruct (answered w) eqn:Ha; [|done].
destruct (live_value cache_key w) as [s|] eqn:Hv; [|done].
destruct (str_truthy s) eqn:Hs; [|done].
injection Ho as Ho. symmetry in Ho.
rewrite (check_redis_hit w s v Ha Hv Hs Ho) in H. exists s. by simplify_eq.
Qed.

(** What [list_books] returns and what it leaves behind, on every path *)
Lemma list_books_effect w :
∃ v w', list_books w = (Return v, w') ∧ db w' = db w ∧ clock w' = clock w ∧
  ((∃ s, answered w = true ∧ live_value cache_key w = Some s ∧ str_truthy s = true ∧
         json_decode s = Some v ∧ cache w' = cache w ∧
         events_since w w' = [RedisGet cache_key; Print "Cache Hit" None]) ∨
   (fst (check_redis w) = Return None ∧ v = dump_books (collection (db w)) ∧
    SelectBooks ∈ events_since w w' ∧
    (cache w' = cache w ∨
     cache w' = <[cache_key := (snapshot (collection (db w)), clock w + 300)]> (cache w)))).
Proof.
destruct (check_redis w) as [[[v|]|e] w1] eqn:Hc.
- destruct (check_redis_Some _ _ _ Hc) as (s & Ha & Hv & Hs & Hd & ->).
  exists v. eexists. split; [by apply list_books_hit_run|].
  split_and!; [done..|]. left. exists s. split_and!; try done.
  apply events_since_pop.
- destruct (list_books_miss _ _ Hc) as (w2 & Hl & Hdb & Hck & Hsel & _ & _ & Hcache).
  eexists _, w2. split; [exact Hl|]. split_and!; [done..|]. right.
  split_and!; try done. destruct (answered w1); [by right|by left].
- destruct (check_redis_total w) as (o & evs & Ht). congruence.
Qed.

(** The trace of the path through the store: what the guarded read
  printed, the line of the miss, the queries, the write to the cache
  and what the guarded write printed *)
Lemma list_books_miss_trace w :
fst (check_redis w) = Return None →
∃ pre post,
  ((∃ e f, faults w = Some e :: f ∧
           pre = [Print "Redis not available, skipping cache" (Some (RedisError e))]) ∨
   (answered w = true ∧
    (live_value cache_key w = None ∨ live_value cache_key w = Some []) ∧ pre = []) ∨
   (answered w = true ∧
    (∃ s, live_value cache_key w = Some s ∧ str_truthy s = true ∧ json_decode s = None) ∧
    pre = [Print "Cache Hit" None;
           Print "Redis not available, skipping cache" (Some JSONDecodeError)])) ∧
  ((answered (pop_fault w) = true ∧ post = []) ∨
   (∃ e f, faults (pop_fault w) = Some e :: f ∧
           post = [Print "Redis not available, couldn't set cache" (Some (RedisError e))])) ∧
  events_since w (snd (list_books w)) =
    RedisGet cache_key :: pre ++
    Print "Cache Miss - Fetching from DB" None :: SelectBooks ::
    map (fun book => SelectReviews (models.Book.id book)) (store.books (db w)) ++
    RedisSetex cache_key 300 (snapshot (collection (db w))) :: post.
Proof.
intros Hnone.
assert (∃ pre, check_redis w = (Return None, emits (RedisGet cache_key :: pre) (pop_fault w)) ∧
  ((∃ e f, faults w = Some e :: f ∧
           pre = [Print "Redis not available, skipping cache" (Some (RedisError e))]) ∨
   (answered w = true ∧
    (live_value cache_key w = None ∨ live_value cache_key w = Some []) ∧ pre = []) ∨
   (answered w = true ∧
    (∃ s, live_value cache_key w = Some s ∧ str_truthy s = true ∧ json_decode s = None) ∧
    pre = [Print "Cache Hit" None;
           Print "Redis not available, skipping cache" (Some JSONDecodeError)])))
  as (pre & Hc & Hpre).
{ rewrite check_redis_outcome in Hnone.
  destruct (answered w) eqn:Ha.
  - destruct (live_value cache_key w) as [s|] eqn:Hv.
    + destruct (str_truthy s) eqn:Hs.
      * destruct (json_decode s) as [v|] eqn:Hd; [done|].
        eexists. split; [by eapply check_redis_undecodable|]. right; right.
        split; [done|]. split; [by exists s|done].
      * eexists. split; [by eapply check_redis_falsy|]. right; left.
        split; [done|]. split; [|done]. right. by destruct s.
    + eexists. split; [by apply check_redis_absent|]. right; left.
      split; [done|]. split; [by left|done].
  - unfold answered in Ha. destruct (faults w) as [|[e|] f] eqn:Hf; try done.
    eexists. split; [by eapply check_redis_fault|]. left. by exists e, f. }
rewrite (list_books_miss_run _ _ Hc). cbn [snd]. wsimpl.
rewrite emits_emits.
set (mid := _ :: _ :: _).
match goal with |- context [cache_it ?r ?w0] => set (r0 := r); set (w0' := w0) end.
destruct (answered w0') eqn:Ha.
- exists pre, []. split; [done|]. split; [by left|].
  rewrite cache_it_answered by done. cbn [snd]. subst w0' mid.
  unfold events_since. wsimpl. rewrite <- !app_assoc, drop_app_length.
  cbn [app]. rewrite <- ?app_assoc. reflexivity.
- assert (∃ e f, faults w0' = Some e :: f) as (e & f & Hf).
  { unfold answered in Ha. destruct (faults w0') as [|[e|] f]; try done. by eexists _, _. }
  exists pre, [Print "Redis not available, couldn't set cache" (Some (RedisError e))].
  split; [done|]. split; [right; by exists e, f|].
  erewrite cache_it_fault by exact Hf. cbn [snd]. subst w0' mid.
  unfold events_since. wsimpl. rewrite <- !app_assoc, drop_app_length.
  cbn [app]. rewrite <- ?app_assoc. reflexivity.
Qed.

End ListBooksPaths.

(** ** What [GET /books] does on every path *)

(** X1. No state and no failure of the cache backend makes
    [list_books] raise.  The two guarded blocks, the read of lines 20 to
    27 and the write of lines 35 to 38, never raise, whatever the cache
    holds and whether or not its round trips are answered: an error of
    the Redis client or of [json.loads] is printed and dropped there.
    The queries of lines 30 and 31 are outside both blocks, and an error
    of the store would leave the handler; the store of this development
    answers every query, and then [list_books] returns either the
    collection of the store, or the value that a non-empty live entry
    under [all_books] deserializes to. *)
Theorem list_books_always_answers (w : World) :
  (∃ hit w1, books.check_redis w = (Return hit, w1)) ∧
  (∀ result, ∃ w1, books.cache_it result w = (Return tt, w1)) ∧
  ∃ v w', books.list_books w = (Return v, w') ∧
    (v = dump_books (collection (db w)) ∨
     ∃ s, answered w = true ∧ live_value books.cache_key w = Some s ∧
          str_truthy s = true ∧ json_decode s = Some v).
Proof.
  split_and!.
  - destruct (check_redis_total w) as (hit & evs & Hc). by eexists _, _.
  - intros result. destruct (cache_it_total result w) as (w1 & Hc & _). by exists w1.
  - destruct (list_books_effect w)
      as (v & w' & Hl & _ & _ & [(s & Ha & Hv & Hs & Hd & _)|(_ & Hv & _)]).
    + exists v, w'. split; [done|]. right. by exists s.
    + exists v, w'. split; [done|]. by left.
Qed.

(** X2. [list_books] reads the store and never writes it; of the cache
    it touches the key [all_books] alone: every other entry is left as
    it was, every round trip is a GET or a SETEX on that key, the SETEX
    with an expiry of 300 seconds, and nothing is inserted. *)
Theorem list_books_frame (w : World) :
  db (snd (books.list_books w)) = db w ∧
  clock (snd (books.list_books w)) = clock w ∧
  (∀ key, key ≠ books.cache_key →
     cache (snd (books.list_books w)) !! key = cache w !! key) ∧
  ∀ ev, ev ∈ events_since w (snd (books.list_books w)) →
    match ev with
    | RedisGet key => key = books.cache_key
    | RedisSetex key seconds _ => key = books.cache_key ∧ seconds = 300
    | InsertBook _ _ | InsertReview _ _ => False
    | _ => True
    end.
Proof.
  destruct (list_books_effect w) as (v & w' & Hl & Hdb & Hck & Hcases).
  pose proof (list_books_miss_trace w) as Htrace.
  rewrite Hl in *. cbn [snd] in *. split_and!; [done..| |].
  - intros key Hkey.
    destruct Hcases as [(s & _ & _ & _ & _ & -> & _)|(_ & _ & _ & [->| ->])]; [done..|].
    by rewrite lookup_insert_ne.
  - intros ev Hev.
    destruct Hcases as [(s & _ & _ & _ & _ & _ & Hevs)|(Hnone & _)].
    + rewrite Hevs in Hev.
      apply elem_of_cons in Hev as [->|Hev]; [done|].
      apply elem_of_cons in Hev as [->|Hev]; [done|]. by apply elem_of_nil in Hev.
    + destruct (Htrace Hnone) as (pre & post & Hpre & Hpost & Hevs).
      rewrite Hevs in Hev.
      apply elem_of_cons in Hev as [->|Hev]; [done|].
      apply elem_of_app in Hev as [Hev|Hev].
      { destruct Hpre as [(e & f & _ & ->)|[(_ & _ & ->)|(_ & _ & ->)]].
        - apply list_elem_of_singleton in Hev as ->. done.
        - by apply elem_of_nil in Hev.
        - apply elem_of_cons in Hev as [->|Hev]; [done|].
          apply list_elem_of_singleton in Hev as ->. done. }
      apply elem_of_cons in Hev as [->|Hev]; [done|].
      apply elem_of_cons in Hev as [->|Hev]; [done|].
      apply elem_of_app in Hev as [Hev|Hev].
      { apply list_elem_of_fmap in Hev as (book & -> & _). done. }
      apply elem_of_cons in Hev as [->|Hev]; [done|].
      destruct Hpost as [[_ ->]|(e & f & _ & ->)].
      * by apply elem_of_nil in Hev.
      * apply list_elem_of_singleton in Hev as ->. done.
Qed.

(** X3. A hit does not write to the cache: the entries are left as they
    were, no SETEX is issued, and so the entry expires when it would
    have expired without the hit. *)
Theorem cache_hit_keeps_expiry (w : World) (s : str) (v : json) :
  answered w = true →
  live_value books.cache_key w = Some s →
  str_truthy s = true →
  json_decode s = Some v →
  cache (snd (books.list_books w)) = cache w ∧
  (∀ key seconds value,
     RedisSetex key seconds value ∉ events_since w (snd (books.list_books w))) ∧
  ∀ t, live_value books.cache_key (sleep t (snd (books.list_books w))) =
       live_value books.cache_key (sleep t w).
Proof.
  intros Ha Hv Hs Hd.
  rewrite (list_books_hit_run w v _ (check_redis_hit w s v Ha Hv Hs Hd)). cbn [snd].
  split_and!; [done| |done].
  intros key seconds value. rewrite events_since_pop.
  intros Hin. apply elem_of_cons in Hin as [?|Hin]; [done|].
  apply elem_of_cons in Hin as [?|Hin]; [done|]. by apply elem_of_nil in Hin.
Qed.

Lemma cache_hit_keeps_expiry_witness :
  cache (snd (books.list_books w_warm)) = cache w_warm ∧
  (∀ key seconds value,
     RedisSetex key seconds value ∉ events_since w_warm (snd (books.list_books w_warm))) ∧
  ∀ t, live_value books.cache_key (sleep t (snd (books.list_books w_warm))) =
       live_value books.cache_key (sleep t w_warm).
Proof.
  apply (cache_hit_keeps_expiry w_warm (snapshot (collection (db w_cold)))
           (dump_books (collection (db w_cold)))).
  - reflexivity.
  - vm_compute. reflexivity.
  - reflexivity.
  - vm_compute. reflexivity.
Defined.

(** X4. What is printed tells the path taken: the line
    [Cache Miss - Fetching from DB] is printed exactly when the books
    are selected from the store; the line [Cache Hit] is printed exactly
    when a non-empty value has been read, and both lines are printed
    exactly when that value does not deserialize. *)
Theorem list_books_log (w : World) :
  (Print "Cache Miss - Fetching from DB" None ∈ events_since w (snd (books.list_books w)) ↔
   SelectBooks ∈ events_since w (snd (books.list_books w))) ∧
  (Print "Cache Hit" None ∈ events_since w (snd (books.list_books w)) ↔
   answered w = true ∧
   ∃ s, live_value books.cache_key w = Some s ∧ str_truthy s = true) ∧
  (Print "Cache Hit" None ∈ events_since w (snd (books.list_books w)) ∧
   Print "Cache Miss - Fetching from DB" None ∈ events_since w (snd (books.list_books w)) ↔
   answered w = true ∧
   ∃ s, live_value books.cache_key w = Some s ∧ str_truthy s = true ∧ json_decode s = None).
Proof.
  destruct (list_books_effect w) as (v & w' & Hl & _ & _ & Hcases).
  pose proof (list_books_miss_trace w) as Htrace.
  rewrite Hl in *. cbn [snd] in *.
  destruct Hcases as [(s & Ha & Hv & Hs & Hd & _ & Hevs)|(Hnone & _)].
  - rewrite Hevs. split_and!.
    + split; intros Hin;
        (apply elem_of_cons in Hin as [?|Hin]; [done|];
         apply elem_of_cons in Hin as [?|Hin]; [done|]; by apply elem_of_nil in Hin).
    + split; [intros _; split; [done|by exists s]|].
      intros _. apply elem_of_cons. right. apply elem_of_cons. by left.
    + split.
      * intros [_ Hin].
        apply elem_of_cons in Hin as [?|Hin]; [done|].
        apply elem_of_cons in Hin as [?|Hin]; [done|]. by apply elem_of_nil in Hin.
      * intros (_ & s' & Hv' & _ & Hd'). congruence.
  - destruct (Htrace Hnone) as (pre & post & Hpre & Hpost & Hevs).
    rewrite Hevs. clear Htrace Hevs.
    set (evs := RedisGet _ :: _).
    assert (Hmiss : Print "Cache Miss - Fetching from DB" None ∈ evs).
    { apply elem_of_cons. right. apply elem_of_app. right. apply elem_of_cons. by left. }
    assert (Hsel : SelectBooks ∈ evs).
    { apply elem_of_cons. right. apply elem_of_app. right.
      apply elem_of_cons. right. apply elem_of_cons. by left. }
    assert (Hhit : Print "Cache Hit" None ∈ evs ↔ Print "Cache Hit" None ∈ pre).
    { split.
      - intros Hin. apply elem_of_cons in Hin as [?|Hin]; [done|].
        apply elem_of_app in Hin as [Hin|Hin]; [done|].
        apply elem_of_cons in Hin as [?|Hin]; [done|].
        apply elem_of_cons in Hin as [?|Hin]; [done|].
        apply elem_of_app in Hin as [Hin|Hin].
        { by apply list_elem_of_fmap in Hin as (book & ? & _). }
        apply elem_of_cons in Hin as [?|Hin]; [done|].
        destruct Hpost as [[_ ->]|(e & f & _ & ->)].
        + by apply elem_of_nil in Hin.
        + by apply list_elem_of_singleton in Hin.
      - intros Hin. apply elem_of_cons. right. apply elem_of_app. by left. }
    rewrite Hhit. clearbody evs.
    assert (Hpre' : Print "Cache Hit" None ∈ pre ↔
              answered w = true ∧
              ∃ s, live_value books.cache_key w = Some s ∧ str_truthy s = true ∧
                   json_decode s = None).
    { destruct Hpre as [(e & f & Hf & ->)|[(Ha & Hv & ->)|(Ha & (s & Hv & Hs & Hd) & ->)]].
      - split.
        + by intros ?%list_elem_of_singleton.
        + intros [Ha _]. unfold answered in Ha. by rewrite Hf in Ha.
      - split.
        + by intros ?%elem_of_nil.
        + intros (_ & s & Hv' & Hs & _). destruct Hv as [Hv|Hv]; rewrite Hv in Hv'; [done|].
          by simplify_eq.
      - split; [|intros _; apply elem_of_cons; by left].
        intros _. split; [done|]. by exists s. }
    split_and!.
    + tauto.
    + rewrite Hpre'. split.
      * intros (Ha & s & Hv & Hs & _). split; [done|]. by exists s.
      * intros (Ha & s & Hv & Hs). split; [done|]. exists s. split_and!; [done..|].
        pose proof (check_redis_outcome w) as Hout. rewrite Hnone, Ha, Hv, Hs in Hout.
        by injection Hout.
    + rewrite Hpre'. tauto.
Qed.

(** X5. On the path through the store, [list_books] sends one query
    for the books and then one query per book for its reviews, in the
    order of the books, and no other query. *)
Theorem miss_path_queries (w : World) :
  fst (books.check_redis w) = Return None →
  List.filter is_store_query (events_since w (snd (books.list_books w))) =
  SelectBooks :: map (fun book => SelectReviews (models.Book.id book)) (store.books (db w)).
Proof.
  intros Hnone.
  destruct (list_books_miss_trace w Hnone) as (pre & post & Hpre & Hpost & ->).
  assert (Hq : ∀ l : list models.Book.t,
            List.filter is_store_query
              (map (fun book => SelectReviews (models.Book.id book)) l) =
            map (fun book => SelectReviews (models.Book.id book)) l).
  { induction l as [|b l IH]; [done|]. cbn [map List.filter is_store_query]. by rewrite IH. }
  cbn [List.filter is_store_query]. rewrite List.filter_app.
  assert (List.filter is_store_query pre = []) as ->.
  { by destruct Hpre as [(e & f & _ & ->)|[(_ & _ & ->)|(_ & _ & ->)]]. }
  cbn [app List.filter is_store_query]. rewrite List.filter_app, Hq.
  cbn [List.filter is_store_query].
  assert (List.filter is_store_query post = []) as ->.
  { by destruct Hpost as [[_ ->]|(e & f & _ & ->)]. }
  by rewrite app_nil_r.
Qed.

Lemma miss_path_queries_witness :
  List.filter is_store_query (events_since w_down (snd (books.list_books w_down))) =
  [SelectBooks; SelectReviews 1].
Proof.
  apply (miss_path_queries w_down). reflexivity.
Defined.

(** ** Runs of the service *)

Section Runs.

Implicit Types (w : World) (s : step) (steps : list step).

Lemma run_app steps1 steps2 w : run (steps1 ++ steps2) w = run steps2 (run steps1 w).
Proof. revert w. induction steps1 as [|s steps1 IH]; intros w; cbn [run app]; [done|apply IH]. Qed.

Lemma run_snoc steps s w : run (steps ++ [s]) w = step_world s (run steps w).
Proof. by rewrite run_app. Qed.

(** What a step does to the store, to the clock and to the cache *)
Lemma step_world_db s w :
db (step_world s w) = db w ∨
(∃ book, s = Serve (PostBook book) ∧
   db (step_world s w) =
     snd (store.insert_book (schemas.BookCreate.title book)
            (schemas.BookCreate.author book) (db w))) ∨
(∃ book_id review row, s = Serve (PostReview book_id review) ∧
   store.insert_review (schemas.ReviewCreate.content review) book_id (db w) =
     Some (row, db (step_world s w))).
Proof.
destruct s as [[|book|book_id|book_id review]|t]; cbn [step_world serve].
- left. by destruct (list_books_effect w) as (v & w' & -> & Hdb & _).
- right; left. by exists book.
- by left.
- unfold books.add_review, crud.add_review, bind, log. cbn [db emit emits].
  destruct (store.insert_review _ _ _) as [[row d]|] eqn:Hi; cbn [snd db set_db].
  + right; right. by exists book_id, review, row.
  + by left.
- by left.
Qed.

Lemma step_world_clock s w :
clock (step_world s w) = clock w + match s with Wait t => t | Serve _ => 0 end.
Proof.
destruct s as [[|book|book_id|book_id review]|t]; cbn [step_world serve].
- destruct (list_books_effect w) as (v & w' & -> & _ & Hck & _). cbn [snd]. lia.
- cbn. lia.
- cbn. lia.
- destruct (add_review_frame book_id review w) as (_ & -> & _). lia.
- done.
Qed.

Lemma step_world_cache s w :
cache (step_world s w) = cache w ∨
(s = Serve GetBooks ∧
 cache (step_world s w) =
   <[books.cache_key := (snapshot (collection (db w)), clock w + 300)]> (cache w)).
Proof.
destruct s as [[|book|book_id|book_id review]|t]; cbn [step_world serve].
- destruct (list_books_effect w)
    as (v & w' & Hl & _ & _ & [(s & _ & _ & _ & _ & Hc & _)|(_ & _ & _ & [Hc|Hc])]);
    rewrite Hl; cbn [snd]; [by left|by left|by right].
- by left.
- by left.
- left. by destruct (add_review_frame book_id review w) as (-> & _).
- by left.
Qed.

Lemma run_clock_mono steps w :
Forall valid_step steps → clock w <= clock (run steps w).
Proof.
intros Hs. revert w. induction Hs as [|s steps Hv _ IH]; intros w; cbn [run]; [lia|].
specialize (IH (step_world s w)). rewrite step_world_clock in IH.
destruct s as [r|t]; cbn [valid_step] in Hv; lia.
Qed.

Lemma valid_insert_book d title author :
valid_db d → valid_text title → valid_text author →
valid_db (snd (store.insert_book title author d)).
Proof.
intros [Hb Hr] Ht Ha. split; cbn; [|done]. apply Forall_app. split; [done|].
by repeat constructor.
Qed.

Lemma valid_insert_review d content book_id row d' :
valid_db d → valid_text content →
store.insert_review content book_id d = Some (row, d') → valid_db d'.
Proof.
intros [Hb Hr] Hc. unfold store.insert_review.
destruct (store.book_exists d book_id); [|done]. intros [= <- <-].
split; cbn; [done|]. apply Forall_app. split; [done|]. by repeat constructor.
Qed.

(** Requests that carry Unicode text keep Unicode text in the store *)
Lemma run_valid_db steps w :
valid_db (db w) → Forall valid_step steps → valid_db (db (run steps w)).
Proof.
intros Hw Hs. revert w Hw. induction Hs as [|s steps Hv _ IH]; intros w Hw; cbn [run]; [done|].
apply IH.
destruct (step_world_db s w) as [->|[(book & -> & ->)|(book_id & review & row & -> & Hi)]].
- done.
- destruct Hv. by apply valid_insert_book.
- by eapply valid_insert_review.
Qed.

Lemma run_integrity steps w :
referential_integrity (db w) → referential_integrity (db (run steps w)).
Proof.
revert w. induction steps as [|s steps IH]; intros w Hw; cbn [run]; [done|].
apply IH.
destruct (step_world_db s w) as [->|[(book & -> & ->)|(book_id & review & row & -> & Hi)]].
- done.
- by apply integrity_insert_book.
- by eapply integrity_insert_review.
Qed.

(** The entry under [all_books] is the snapshot of the store at an
  earlier point of the run, written there with an expiry of 300
  seconds *)
Lemma run_cache_entry w0 steps x expires :
cache w0 !! books.cache_key = None →
Forall valid_step steps →
cache (run steps w0) !! books.cache_key = Some (x, expires) →
∃ past rest, steps = past ++ rest ∧
  x = snapshot (collection (db (run past w0))) ∧
  expires = clock (run past w0) + 300 ∧
  clock (run past w0) <= clock (run steps w0).
Proof.
intros Hw0. revert x expires.
induction steps as [|s steps IH] using rev_ind; intros x expires Hs Hx.
{ cbn [run] in Hx. congruence. }
apply Forall_app in Hs as [Hs Hv]. apply Forall_cons in Hv as [Hv _].
rewrite run_snoc in *.
pose proof (step_world_clock s (run steps w0)) as Hck.
assert (Hmono : clock (run steps w0) <= clock (step_world s (run steps w0))).
{ rewrite Hck. destruct s as [r|t]; cbn [valid_step] in Hv; lia. }
destruct (step_world_cache s (run steps w0)) as [Hc|[-> Hc]]; rewrite Hc in Hx.
- destruct (IH _ _ Hs Hx) as (past & rest & -> & -> & -> & Hle).
  exists past, (rest ++ [s]). rewrite app_assoc. split_and!; [done..|lia].
- rewrite lookup_insert_eq in Hx. injection Hx as <- <-.
  exists steps, [Serve GetBooks]. split_and!; [done..|lia].
Qed.

End Runs.

(** X6. Bounded staleness.  In a run of requests and waits that starts
    with no entry under [all_books] and with Unicode text in the store
    and in the requests, whatever [GET /books] returns is the collection
    that the store held at some point of the run less than 300 seconds
    before, whichever round trips to the cache backend failed on the
    way. *)
Theorem bounded_staleness (w0 : World) (steps : list step) (v : json) :
  valid_db (db w0) →
  cache w0 !! books.cache_key = None →
  Forall valid_step steps →
  fst (books.list_books (run steps w0)) = Return v →
  ∃ past rest, steps = past ++ rest ∧
    v = dump_books (collection (db (run past w0))) ∧
    clock (run steps w0) - 300 < clock (run past w0) <= clock (run steps w0).
Proof.
  intros Hdb Hw0 Hs Hv.
  destruct (list_books_effect (run steps w0))
    as (v' & w' & Hl & _ & _ & [(x & _ & Hlive & _ & Hd & _)|(_ & Hv' & _)]);
    rewrite Hl in Hv; cbn [fst] in Hv; injection Hv as ->.
  - unfold live_value in Hlive.
    destruct (cache (run steps w0) !! books.cache_key) as [[x' expires]|] eqn:Hx; [|done].
    destruct (clock (run steps w0) <? expires) eqn:Hlt; [|done].
    injection Hlive as ->. apply Z.ltb_lt in Hlt.
    destruct (run_cache_entry _ _ _ _ Hw0 Hs Hx) as (past & rest & -> & -> & -> & Hle).
    exists past, rest. split; [done|].
    apply Forall_app in Hs as [Hs _].
    rewrite snapshot_decode in Hd
      by (apply valid_collection; by apply run_valid_db).
    injection Hd as <-. split; [done|lia].
  - exists steps, []. rewrite app_nil_r. split_and!; [done..|lia|lia].
Qed.

Lemma bounded_staleness_witness :
  ∃ past rest,
    [Serve (PostBook alchemist); Serve GetBooks; Serve (PostBook habits); Wait 299] =
      past ++ rest ∧
    dump_books (collection (db (snd (books.add_book alchemist w_empty)))) =
      dump_books (collection (db (run past w_empty))) ∧
    clock (run [Serve (PostBook alchemist); Serve GetBooks; Serve (PostBook habits); Wait 299]
             w_empty) - 300
      < clock (run past w_empty)
      <= clock (run [Serve (PostBook alchemist); Serve GetBooks; Serve (PostBook habits);
                     Wait 299] w_empty).
Proof.
  apply (bounded_staleness w_empty
           [Serve (PostBook alchemist); Serve GetBooks; Serve (PostBook habits); Wait 299]).
  - split; constructor.
  - reflexivity.
  - repeat constructor; cbn; try lia;
      apply Forall_forall; intros c Hc; by repeat (apply elem_of_cons in Hc as [->|Hc]; [done|]);
      apply elem_of_nil in Hc.
  - vm_compute. reflexivity.
Defined.

(** X7. No request deletes or changes a row: through every run, the
    books and the reviews that the store holds remain, in their order,
    at the head of the tables. *)
Theorem store_append_only (w : World) (steps : list step) :
  store.books (db w) `prefix_of` store.books (db (run steps w)) ∧
  store.reviews (db w) `prefix_of` store.reviews (db (run steps w)).
Proof.
  revert w. induction steps as [|s steps IH]; intros w; cbn [run]; [done|].
  destruct (IH (step_world s w)) as [Hb Hr].
  pose proof (step_world_db s w) as Hstep.
  remember (step_world s w) as w1 eqn:Hw1. clear Hw1.
  destruct Hstep as [Hd|[(book & _ & Hd)|(book_id & review & row & _ & Hi)]].
  - by rewrite Hd in Hb, Hr.
  - rewrite Hd in Hb, Hr. cbn in Hb, Hr. split; [|done].
    etrans; [|exact Hb]. by apply prefix_app_r.
  - unfold store.insert_review in Hi.
    destruct (store.book_exists (db w) book_id); [|done].
    injection Hi as _ Hd. rewrite <- Hd in Hb, Hr. cbn in Hb, Hr. split; [done|].
    etrans; [|exact Hr]. by apply prefix_app_r.
Qed.

(** X8. In every world that a run reaches from a store with referential
    integrity, the reviews of a book that the store does not hold are
    the empty list, not an error. *)
Theorem get_reviews_unknown_book_run (w0 : World) (steps : list step) (book_id : Z) :
  referential_integrity (db w0) →
  store.book_exists (db (run steps w0)) book_id = false →
  fst (books.get_reviews book_id (run steps w0)) = Return [].
Proof.
  intros Hw0 Hb. cbn. f_equal.
  apply select_reviews_unknown; [by apply run_integrity|done].
Qed.

Lemma get_reviews_unknown_book_run_witness :
  fst (books.get_reviews 7
         (run [Serve (PostBook alchemist);
               Serve (PostReview 1 (schemas.ReviewCreate.mk (py "A fable")));
               Serve (PostReview 7 (schemas.ReviewCreate.mk (py "Lost")))] w_empty)) =
  Return [].
Proof.
  apply (get_reviews_unknown_book_run w_empty).
  - constructor.
  - vm_compute. reflexivity.
Defined.

(** ** The entry under [all_books], from the miss that writes it to its
    expiry *)

Lemma populated_entry w w1 v w' :
  books.check_redis w = (Return None, w1) → answered w1 = true →
  books.list_books w = (Return v, w') →
  v = dump_books (collection (db w)) ∧
  cache w' !! books.cache_key = Some (snapshot (collection (db w)), clock w + 300).
Proof.
  intros Hc Ha Hl.
  destruct (list_books_miss _ _ Hc) as (w2 & Hl' & _ & _ & _ & _ & _ & Hcache).
  rewrite Hl' in Hl. injection Hl as <- <-. split; [done|].
  rewrite Hcache, Ha. apply lookup_insert_eq.
Qed.



(** X10. Once 300 seconds have passed since the miss that wrote the
    entry, the entry is no longer served: [GET /books] selects the
    books from the store and returns the collection that the store
    holds by then. *)
Theorem list_books_after_expiry (w w1 w' w2 : World) (v : json) :
  books.check_redis w = (Return None, w1) →
  answered w1 = true →
  books.list_books w = (Return v, w') →
  cache w2 !! books.cache_key = cache w' !! books.cache_key →
  clock w + 300 <= clock w2 →
  ∃ w3, books.list_books w2 = (Return (dump_books (collection (db w2))), w3) ∧
        SelectBooks ∈ events_since w2 w3.
Proof.
  intros Hc Ha Hl Hcache Hck.
  destruct (populated_entry _ _ _ _ Hc Ha Hl) as [-> Hentry].
  rewrite Hentry in Hcache.
  assert (Hlive : live_value books.cache_key w2 = None).
  { unfold live_value. rewrite Hcache.
    by rewrite (proj2 (Z.ltb_ge (clock w2) (clock w + 300)) Hck). }
  destruct (list_books_effect w2)
    as (v2 & w3 & Hl2 & _ & _ & [(x & _ & Hlive' & _)|(_ & -> & Hsel & _)]); [congruence|].
  by exists w3.
Qed.

Lemma list_books_after_expiry_witness :
  ∃ w3, books.list_books (sleep 300 (snd (books.add_book habits w_warm))) =
          (Return (dump_books
                     (collection (db (sleep 300 (snd (books.add_book habits w_warm)))))), w3) ∧
        SelectBooks ∈ events_since (sleep 300 (snd (books.add_book habits w_warm))) w3.
Proof.
  apply (list_books_after_expiry w_cold (snd (books.check_redis w_cold)) w_warm _
           (dump_books (collection (db w_cold)))).
  - vm_compute. reflexivity.
  - reflexivity.
  - vm_compute. reflexivity.
  - reflexivity.
  - vm_compute. discriminate.
Defined.

(** ** Writes followed by reads *)

Lemma check_redis_same_cache w w2 :
  cache w2 = cache w → clock w2 = clock w → faults w2 = faults w →
  fst (books.check_redis w2) = fst (books.check_redis w).
Proof.
  intros Hc Hk Hf. rewrite !check_redis_outcome. unfold answered, live_value.
  by rewrite Hc, Hk, Hf.
Qed.

(** X11. A book that has just been created is listed by the next
    [GET /books] that goes through the store: it is there under a new
    id, with the title and the author of the request and, in a store
    with referential integrity, with no review. *)
Theorem posted_book_is_listed (w : World) (book : schemas.BookCreate.t) :
  referential_integrity (db w) →
  fst (books.check_redis w) = Return None →
  ∃ row w1 l w2,
    books.add_book book w = (Return row, w1) ∧
    (models.Book.id row ∉ map models.Book.id (store.books (db w))) ∧
    books.list_books w1 = (Return (JList l), w2) ∧
    JDict [(py "title", JStr (schemas.BookCreate.title book));
           (py "author", JStr (schemas.BookCreate.author book));
           (py "id", JInt (models.Book.id row));
           (py "reviews", JList [])] ∈ l.
Proof.
  intros Hint Hnone. rewrite add_book_run.
  set (row := models.Book.mk _ _ _). set (w1 := set_db _ _).
  assert (Hfresh : models.Book.id row ∉ map models.Book.id (store.books (db w)))
    by apply next_id_fresh.
  assert (Hnone1 : fst (books.check_redis w1) = Return None).
  { by rewrite (check_redis_same_cache w w1). }
  destruct (list_books_effect w1)
    as (v & w2 & Hl & _ & _ & [(x & Ha & Hv & Hs & Hd & _)|(_ & -> & _)]).
  { rewrite check_redis_outcome, Ha, Hv, Hs, Hd in Hnone1. done. }
  exists row, w1, (map schemas.BookOut.model_dump (collection (db w1))), w2.
  split_and!; [done..|].
  assert (Hrow : book_out (db w1) row =
                 schemas.BookOut.mk (schemas.BookCreate.title book)
                   (schemas.BookCreate.author book) (models.Book.id row) []).
  { unfold book_out. cbn [models.Book.title models.Book.author row]. f_equal.
    change (store.select_reviews (db w1) (models.Book.id row))
      with (store.select_reviews (db w) (models.Book.id row)).
    rewrite select_reviews_unknown; [done|done|].
    unfold store.book_exists. by apply bool_decide_eq_false. }
  change (JDict _) with
    (schemas.BookOut.model_dump
       (schemas.BookOut.mk (schemas.BookCreate.title book)
          (schemas.BookCreate.author book) (models.Book.id row) [])).
  rewrite <- Hrow. apply list_elem_of_fmap_2. unfold collection. apply list_elem_of_fmap_2.
  unfold store.select_books. subst w1. cbn. apply elem_of_app. right. by apply elem_of_cons; left.
Qed.

Lemma posted_book_is_listed_witness :
  ∃ row w1 l w2,
    books.add_book habits w_cold = (Return row, w1) ∧
    (models.Book.id row ∉ map models.Book.id (store.books (db w_cold))) ∧
    books.list_books w1 = (Return (JList l), w2) ∧
    JDict [(py "title", JStr (py "Atomic Habits"));
           (py "author", JStr (py "James Clear"));
           (py "id", JInt (models.Book.id row));
           (py "reviews", JList [])] ∈ l.
Proof.
  apply (posted_book_is_listed w_cold habits).
  - exact integrity_cold.
  - reflexivity.
Defined.

(** The row that [add_review] inserts for a book of the store *)
Lemma posted_review_fresh w book_id review :
  store.book_exists (db w) book_id = true →
  ∃ row w1,
    books.add_review book_id review w = (Return row, w1) ∧
    row ∈ store.select_reviews (db w1) book_id ∧
    models.Review.book_id row = Some book_id ∧
    (models.Review.id row ∉ map models.Review.id (store.reviews (db w))).
Proof.
  intros Hb. unfold books.add_review, crud.add_review, bind, log.
  cbn [db emit emits]. unfold store.insert_review. rewrite Hb.
  eexists _, _. split; [reflexivity|]. split_and!; [|done|apply next_id_fresh].
  apply select_reviews_spec. cbn. split; [|done]. apply elem_of_app. right.
  by apply elem_of_cons; left.
Qed.

(** X12. A review that has just been created for a book of the store is
    listed by [GET /books/{book_id}/reviews] for that book, after the
    reviews that were there, under a new id and with the content of the
    request; the reviews of every other book are what they were. *)
Theorem posted_review_is_listed (w : World) (book_id : Z) (review : schemas.ReviewCreate.t) :
  store.book_exists (db w) book_id = true →
  ∃ row w1,
    books.add_review book_id review w = (Return row, w1) ∧
    models.Review.content row = schemas.ReviewCreate.content review ∧
    models.Review.book_id row = Some book_id ∧
    (models.Review.id row ∉ map models.Review.id (store.reviews (db w))) ∧
    ∀ i rs, fst (books.get_reviews i w) = Return rs →
      fst (books.get_reviews i w1) =
      Return (rs ++ if bool_decide (i = book_id) then [row] else []).
Proof.
  intros Hb. unfold books.add_review, crud.add_review, bind, log.
  cbn [db emit emits]. unfold store.insert_review. rewrite Hb.
  eexists _, _. split; [reflexivity|]. cbn [models.Review.content models.Review.book_id
    models.Review.id]. split_and!; [done..|apply next_id_fresh|].
  intros i rs [= <-]. cbn. f_equal. unfold store.select_reviews. cbn.
  rewrite filter_app. f_equal.
  case_bool_decide as Hi.
  - subst i. by rewrite filter_cons_True.
  - rewrite filter_cons_False; [done|]. cbn. congruence.
Qed.

Lemma posted_review_is_listed_witness :
  ∃ row w1,
    books.add_review 1 (schemas.ReviewCreate.mk (py "Again")) w_cold = (Return row, w1) ∧
    models.Review.content row = py "Again" ∧
    models.Review.book_id row = Some 1 ∧
    (models.Review.id row ∉ map models.Review.id (store.reviews (db w_cold))) ∧
    ∀ i rs, fst (books.get_reviews i w_cold) = Return rs →
      fst (books.get_reviews i w1) =
      Return (rs ++ if bool_decide (i = 1) then [row] else []).
Proof.
  apply (posted_review_is_listed w_cold 1 (schemas.ReviewCreate.mk (py "Again"))).
  reflexivity.
Defined.

(** X13. The two reads agree: on the path through the store,
    [GET /books] lists every book of the store as an object with its
    title, author and id, and with, under [reviews], the content and
    the id of exactly the reviews that [GET /books/{book_id}/reviews]
    returns for the id of the book, in the same order. *)
Theorem books_and_reviews_agree (w : World) (book : models.Book.t) :
  fst (books.check_redis w) = Return None →
  book ∈ store.books (db w) →
  ∃ l rs,
    fst (books.list_books w) = Return (JList l) ∧
    fst (books.get_reviews (models.Book.id book) w) = Return rs ∧
    JDict [(py "title", JStr (models.Book.title book));
           (py "author", JStr (models.Book.author book));
           (py "id", JInt (models.Book.id book));
           (py "reviews",
            JList (map (fun r => JDict [(py "content", JStr (models.Review.content r));
                                        (py "id", JInt (models.Review.id r))]) rs))] ∈ l.
Proof.
  intros Hnone Hbook.
  destruct (list_books_effect w)
    as (v & w2 & Hl & _ & _ & [(x & Ha & Hv & Hs & Hd & _)|(_ & -> & _)]).
  { rewrite check_redis_outcome, Ha, Hv, Hs, Hd in Hnone. done. }
  exists (map schemas.BookOut.model_dump (collection (db w))),
         (store.select_reviews (db w) (models.Book.id book)).
  rewrite Hl. split_and!; [done..|].
  apply list_elem_of_fmap. exists (book_out (db w) book). split.
  - unfold schemas.BookOut.model_dump, book_out. cbn. by rewrite map_map.
  - unfold collection. by apply list_elem_of_fmap_2.
Qed.

Lemma books_and_reviews_agree_witness :
  ∃ l rs,
    fst (books.list_books w_down) = Return (JList l) ∧
    fst (books.get_reviews 1 w_down) = Return rs ∧
    JDict [(py "title", JStr (py "The Alchemist"));
           (py "author", JStr (py "Paulo Coelho"));
           (py "id", JInt 1);
           (py "reviews",
            JList (map (fun r => JDict [(py "content", JStr (models.Review.content r));
                                        (py "id", JInt (models.Review.id r))]) rs))] ∈ l.
Proof.
  apply (books_and_reviews_agree w_down
           (models.Book.mk 1 (py "The Alchemist") (py "Paulo Coelho"))).
  - reflexivity.
  - vm_compute. apply elem_of_cons. by left.
Defined.

(** X14. The endpoints that do not go through the cache do not depend
    on it: what [POST /books], [GET /books/{book_id}/reviews] and
    [POST /books/{book_id}/reviews] return, and the store they leave,
    are the same in two worlds with the same store, whatever the cache
    backend holds and whether or not it answers. *)
Theorem store_endpoints_ignore_cache (w w2 : World) :
  db w = db w2 →
  (∀ book,
     fst (books.add_book book w) = fst (books.add_book book w2) ∧
     db (snd (books.add_book book w)) = db (snd (books.add_book book w2))) ∧
  (∀ book_id,
     fst (books.get_reviews book_id w) = fst (books.get_reviews book_id w2) ∧
     db (snd (books.get_reviews book_id w)) = db (snd (books.get_reviews book_id w2))) ∧
  (∀ book_id review,
     fst (books.add_review book_id review w) = fst (books.add_review book_id review w2) ∧
     db (snd (books.add_review book_id review w)) =
       db (snd (books.add_review book_id review w2))).
Proof.
  intros Hdb. split_and!.
  - intros book. rewrite !add_book_run. cbn [fst snd db set_db]. by rewrite Hdb.
  - intros book_id. cbn. by rewrite Hdb.
  - intros book_id review. unfold books.add_review, crud.add_review, bind, log.
    cbn [db emit emits]. rewrite Hdb.
    by destruct (store.insert_review _ _ _) as [[row d]|].
Qed.

Lemma store_endpoints_ignore_cache_witness :
  (∀ book,
     fst (books.add_book book w_cold) = fst (books.add_book book w_down) ∧
     db (snd (books.add_book book w_cold)) = db (snd (books.add_book book w_down))) ∧
  (∀ book_id,
     fst (books.get_reviews book_id w_cold) = fst (books.get_reviews book_id w_down) ∧
     db (snd (books.get_reviews book_id w_cold)) =
       db (snd (books.get_reviews book_id w_down))) ∧
  (∀ book_id review,
     fst (books.add_review book_id review w_cold) =
       fst (books.add_review book_id review w_down) ∧
     db (snd (books.add_review book_id review w_cold)) =
       db (snd (books.add_review book_id review w_down))).
Proof.
  apply (store_endpoints_ignore_cache w_cold w_down). reflexivity.
Defined.

(** X16. After a miss has written the entry under [all_books], a
    review created at any later point, in a store that still holds the
    reviews it held at the miss, gets an id that no review of the value
    returned by the miss has.  From then on, in every world that holds
    the new row and in which the entry is served (the entry written by
    the miss is still under the key, less than 300 seconds have passed
    since the miss and the read is answered),
    [GET /books/{book_id}/reviews] returns the new review while
    [GET /books] returns what the miss returned, without it: until the
    entry expires the two reads disagree. *)
Theorem posted_review_is_stale
    (w w1 w' w2 : World) (v : json) (book_id : Z) (review : schemas.ReviewCreate.t) :
  valid_db (db w) →
  books.check_redis w = (Return None, w1) →
  answered w1 = true →
  books.list_books w = (Return v, w') →
  store.reviews (db w) ⊆ store.reviews (db w2) →
  store.book_exists (db w2) book_id = true →
  ∃ row w3,
    books.add_review book_id review w2 = (Return row, w3) ∧
    row ∈ store.reviews (db w3) ∧
    v = dump_books (collection (db w)) ∧
    (∀ b r, b ∈ collection (db w) → r ∈ schemas.BookOut.reviews b →
            schemas.ReviewOut.id r ≠ models.Review.id row) ∧
    ∀ w4,
      row ∈ store.reviews (db w4) →
      cache w4 !! books.cache_key = cache w' !! books.cache_key →
      clock w4 < clock w + 300 →
      answered w4 = true →
      (∃ rs, fst (books.get_reviews book_id w4) = Return rs ∧ row ∈ rs) ∧
      fst (books.list_books w4) = Return v.
Proof.
  intros Hdb Hc Ha Hl Hsub Hb.
  destruct (populated_entry _ _ _ _ Hc Ha Hl) as [-> Hentry].
  destruct (posted_review_fresh w2 book_id review Hb)
    as (row & w3 & Hadd & Hin & Hbid & Hfresh).
  exists row, w3. split_and!; [done| |done| |].
  - by apply select_reviews_spec in Hin as [Hin _].
  - intros b r Hbin Hr Heq. apply Hfresh. rewrite <- Heq.
    unfold collection in Hbin. apply list_elem_of_fmap in Hbin as (book & -> & _).
    unfold book_out in Hr. cbn in Hr.
    apply list_elem_of_fmap in Hr as (r0 & -> & Hr0).
    apply select_reviews_spec in Hr0 as [Hr0 _].
    cbn. apply list_elem_of_fmap_2. by apply Hsub.
  - intros w4 Hrow Hcache Hck Ha4. split.
    + exists (store.select_reviews (db w4) book_id). split; [done|].
      by apply select_reviews_spec.
    + rewrite Hentry in Hcache.
      assert (Hlive : live_value books.cache_key w4 = Some (snapshot (collection (db w)))).
      { unfold live_value. rewrite Hcache.
        by rewrite (proj2 (Z.ltb_lt (clock w4) (clock w + 300)) Hck). }
      erewrite list_books_hit_run; [done|].
      apply (check_redis_hit w4 (snapshot (collection (db w)))); [done|exact Hlive|done|].
      apply snapshot_decode. by apply valid_collection.
Qed.

Lemma posted_review_is_stale_witness :
  ∃ row w3,
    books.add_review 1 (schemas.ReviewCreate.mk (py "Again"))
      (sleep 200 (snd (books.add_book habits w_warm))) = (Return row, w3) ∧
    row ∈ store.reviews (db w3) ∧
    dump_books (collection (db w_cold)) = dump_books (collection (db w_cold)) ∧
    (∀ b r, b ∈ collection (db w_cold) → r ∈ schemas.BookOut.reviews b →
            schemas.ReviewOut.id r ≠ models.Review.id row) ∧
    ∀ w4,
      row ∈ store.reviews (db w4) →
      cache w4 !! books.cache_key = cache w_warm !! books.cache_key →
      clock w4 < clock w_cold + 300 →
      answered w4 = true →
      (∃ rs, fst (books.get_reviews 1 w4) = Return rs ∧ row ∈ rs) ∧
      fst (books.list_books w4) = Return (dump_books (collection (db w_cold))).
Proof.
  apply (posted_review_is_stale w_cold (snd (books.check_redis w_cold)) w_warm
           (sleep 200 (snd (books.add_book habits w_warm)))).
  - exact valid_db_cold.
  - vm_compute. reflexivity.
  - reflexivity.
  - vm_compute. reflexivity.
  - intros r Hr. exact Hr.
  - reflexivity.
Defined.

(** ** The text of a snapshot *)

Section Printable.

Lemma printable_hex_digit k : 0 <= k < 16 → printable (hex_digit k).
Proof. unfold printable, hex_digit. intros Hk. destruct (k <? 10) eqn:H; lia. Qed.

Lemma printable_u_escape n : Forall printable (u_escape n).
Proof.
unfold u_escape. repeat apply Forall_cons_2; try apply Forall_nil_2;
  try (unfold printable, BACKSLASH; lia);
  apply printable_hex_digit; apply Z.mod_pos_bound; lia.
Qed.

Lemma printable_escape_char c : Forall printable (escape_char c).
Proof.
unfold escape_char.
destruct ((32 <=? c) && (c <=? 126)) eqn:Hc.
- apply andb_true_iff in Hc as [?%Z.leb_le ?%Z.leb_le].
  repeat case_match;
    repeat apply Forall_cons_2; try apply Forall_nil_2;
    unfold printable, BACKSLASH, DQUOTE; lia.
- repeat case_match;
    first [ apply printable_u_escape
          | apply Forall_app; split; apply printable_u_escape
          | repeat apply Forall_cons_2; try apply Forall_nil_2;
            unfold printable, BACKSLASH, DQUOTE; lia ].
Qed.

Lemma printable_encode s : Forall printable (encode_basestring_ascii s).
Proof.
unfold encode_basestring_ascii. apply Forall_cons_2; [unfold printable, DQUOTE; lia|].
apply Forall_app. split; [|apply Forall_cons_2; [unfold printable, DQUOTE; lia|done]].
induction s as [|c s IH]; cbn [flat_map]; [done|].
apply Forall_app. split; [apply printable_escape_char|done].
Qed.

Lemma printable_int_repr n : Forall printable (int_repr n).
Proof.
assert (Hd : ∀ d, Forall printable (uint_codes d)).
{ intros d. eapply Forall_impl; [apply uint_codes_digits|].
  intros c Hc. unfold is_digit in Hc.
  apply andb_true_iff in Hc as [?%Z.leb_le ?%Z.leb_le]. unfold printable. lia. }
unfold int_repr. destruct (Z.to_int n); [apply Hd|].
apply Forall_cons_2; [unfold printable, MINUS; lia|apply Hd].
Qed.

Lemma printable_py_sep : Forall printable (py ", ") ∧ Forall printable (py ": ").
Proof.
rewrite sep_comma, sep_colon.
split; repeat apply Forall_cons_2; try apply Forall_nil_2; unfold printable, COMMA, COLON; lia.
Qed.

Lemma printable_join (parts : list str) :
Forall (Forall printable) parts → Forall printable (join_sep (py ", ") parts).
Proof.
induction 1 as [|p ps Hp Hps IH]; [done|]. rewrite join_sep_cons.
apply Forall_app. split; [done|]. destruct ps as [|q ps]; [done|].
apply Forall_app. split; [apply printable_py_sep|done].
Qed.

Lemma printable_pair key (v : json) :
Forall printable (json_dumps v) →
Forall printable (encode_basestring_ascii key ++ py ": " ++ json_dumps v).
Proof.
intros Hv. apply Forall_app. split; [apply printable_encode|].
apply Forall_app. split; [apply printable_py_sep|done].
Qed.

Lemma printable_list (l : list json) :
Forall (fun v => Forall printable (json_dumps v)) l →
Forall printable (json_dumps (JList l)).
Proof.
intros Hl. cbn [json_dumps]. apply Forall_cons_2; [unfold printable, LBRACKET; lia|].
apply Forall_app. split; [|apply Forall_cons_2; [unfold printable, RBRACKET; lia|done]].
apply printable_join. by apply Forall_fmap.
Qed.

Lemma printable_dict (d : list (str * json)) :
Forall (fun kv => Forall printable (json_dumps (snd kv))) d →
Forall printable (json_dumps (JDict d)).
Proof.
intros Hd. cbn [json_dumps]. apply Forall_cons_2; [unfold printable, LBRACE; lia|].
apply Forall_app. split; [|apply Forall_cons_2; [unfold printable, RBRACE; lia|done]].
apply printable_join. apply Forall_fmap. eapply Forall_impl; [exact Hd|].
intros [k v] Hv. by apply printable_pair.
Qed.

End Printable.

(** X15. With [ensure_ascii], the snapshot that [list_books] writes to
    the cache is printable ASCII, whatever code points the titles, the
    authors and the reviews are made of. *)
Theorem snapshot_printable (bs : list schemas.BookOut.t) :
  Forall printable (snapshot bs).
Proof.
  unfold snapshot, dump_books. apply printable_list. apply Forall_fmap, Forall_forall.
  intros b _. unfold schemas.BookOut.model_dump. apply printable_dict.
  apply Forall_cons_2; [apply printable_encode|].
  apply Forall_cons_2; [apply printable_encode|].
  apply Forall_cons_2; [apply printable_int_repr|].
  apply Forall_cons_2; [|apply Forall_nil_2]. cbn [snd].
  apply printable_list. apply Forall_fmap, Forall_forall.
  intros r _. unfold schemas.ReviewOut.model_dump. apply printable_dict.
  apply Forall_cons_2; [apply printable_encode|].
  apply Forall_cons_2; [apply printable_int_repr|apply Forall_nil_2].
Qed.
